(** * Heirloom: the command layer ([heirloom/cli/__init__.py]) and the
    console wrapper ([heirloom/console.py]).

    The commands are Python methods that read and write the manager object,
    raise exceptions and talk to collaborators (the [Heirloom] client, the
    record database, InquirerPy, [os], [subprocess]).  They are embedded as
    computations in a state-and-exception monad over a [World]; collaborators
    whose source is in other modules are a record of operations on an abstract
    external state. *)

From Stdlib Require Import Ascii.
From stdpp Require Import base strings list gmap.

Local Open Scope string_scope.
Local Open Scope list_scope.

(** ** Python values and exceptions *)

(** The exceptions the embedded code can raise.  All of them are subclasses of
    [Exception], so [except Exception] catches each of them. *)
Inductive Exception :=
| NameError (name : string)
| UnboundLocalError (name : string)
| TypeError (msg : string)
| KeyError (key : string)
| AttributeError (msg : string)
| IndexError
| EOFError
| DbError (kind : string)
| External (what : string).

(** Truth value of an optional string ([None] and [''] are false). *)
Definition truthy_str (s : option string) : bool :=
  match s with
  | None | Some "" => false
  | Some _ => true
  end.

(** Truth value of an optional list ([None] and [[]] are false). *)
Definition truthy_list {A} (l : option (list A)) : bool :=
  match l with
  | None | Some [] => false
  | Some _ => true
  end.

Inductive Outcome (A : Type) :=
| Ok (a : A)
| Raise (e : Exception).
Arguments Ok {A} a.
Arguments Raise {A} e.

(** ** Strings *)

(** [s.split(sep)] for a one-character separator. *)
Fixpoint split (sep : ascii) (s : string) : list string :=
  match s with
  | "" => [""]
  | String c rest =>
      if bool_decide (c = sep) then "" :: split sep rest
      else match split sep rest with
           | piece :: pieces => String c piece :: pieces
           | [] => [String c ""]
           end
  end.

(** Text without an opening bracket holds no markup tag, so rich renders it
    as it is. *)
Fixpoint no_markup (s : string) : bool :=
  match s with
  | "" => true
  | String c rest => negb (bool_decide (c = "["%char)) && no_markup rest
  end.

(** ** Data passed between the command layer and its collaborators *)

(** An entry of [heirloom.games]; [install_dir] and [executable] are the keys
    that [merge_game_data_with_db] adds, absent before. *)
Record Game := {
  game_name : string;
  installer_uuid : string;
  game_description : string;
  install_dir : option string;
  executable : option string
}.

(** The dictionary returned by [Heirloom.install_game] and
    [Heirloom.uninstall_game]; a field is [None] when the key is absent. *)
Record Result := {
  status : option string;
  install_path : option string;
  executable_files : option (list string)
}.

Inductive InstallationMethod := wine | sevenzip.

Definition InstallationMethod_value (m : InstallationMethod) : string :=
  match m with
  | wine => "wine"
  | sevenzip => "7zip"
  end.

(** ** The record store *)

Definition NOT_INSTALLED : string := "Not Installed".

(** A row of the games table, with the columns that [write_game_record]
    takes as keywords (the spec's [titleId], [name], [installDir] and
    [executablePath]); an id or a name may be [None]. *)
Record InstallRecord := {
  rec_uuid : option string;
  rec_name : option string;
  rec_install_dir : string;
  rec_executable : string
}.

(** Records in insertion order. *)
Abbreviation Store := (list InstallRecord).

(** Modelled from the spec: [read_game_record] of [database_functions], the
    Record Store's [get]: exactly one of the id and the name is supplied
    ([None] is the default of an omitted keyword), a query with both or
    neither fails with [InvalidQuery]; a name lookup returns the first match
    in insertion order. *)
Definition read_game_record (db : Store) (uuid name : option string)
    : Outcome (option InstallRecord) :=
  match uuid, name with
  | Some u, None => Ok (find (λ r, bool_decide (rec_uuid r = Some u)) db)
  | None, Some n => Ok (find (λ r, bool_decide (rec_name r = Some n)) db)
  | _, _ => Raise (DbError "InvalidQuery")
  end.

(** Modelled from the spec: the Record Store's [upsert]: insert if no record
    has the id, else overwrite all fields except the id. *)
Fixpoint upsert (r : InstallRecord) (db : Store) : Store :=
  match db with
  | [] => [r]
  | r0 :: rest =>
      if bool_decide (rec_uuid r0 = rec_uuid r) then r :: rest
      else r0 :: upsert r rest
  end.

(** Modelled from the spec: [write_game_record] of [database_functions],
    an [upsert] of the record made of its keyword arguments. *)
Definition write_game_record (db : Store) (name uuid : option string)
    (install_dir executable : string) : Store :=
  upsert {| rec_uuid := uuid; rec_name := name;
            rec_install_dir := install_dir; rec_executable := executable |} db.

(** Modelled from the spec: [delete_game_record] of [database_functions], the
    Record Store's [delete]: removes the record with that id, a no-op when
    there is none. *)
Definition delete_game_record (db : Store) (uuid : option string) : Store :=
  filter (λ r, rec_uuid r ≠ uuid) db.

(** Modelled from the spec: the placeholder record that [initializeFrom]
    creates for a catalog entry, both fields [NOT_INSTALLED]. *)
Definition placeholder (g : Game) : InstallRecord :=
  {| rec_uuid := Some (installer_uuid g); rec_name := Some (game_name g);
     rec_install_dir := NOT_INSTALLED; rec_executable := NOT_INSTALLED |}.

(** Modelled from the spec: [init_games_db] of [database_functions], the
    Record Store's [initializeFrom]: a placeholder for every catalog entry
    without a record, existing records untouched. *)
Fixpoint init_games_db (db : Store) (catalog : list Game) : Store :=
  match catalog with
  | [] => db
  | g :: rest =>
      init_games_db
        (if existsb (λ r, bool_decide (rec_uuid r = Some (installer_uuid g))) db
         then db else (db ++ [placeholder g])%list)
        rest
  end.

(** Modelled from the spec: [refresh_game_installation_status] of
    [database_functions], the Status Reconciler: a record whose install
    directory is set and whose executable is no longer on disk is downgraded
    to [NOT_INSTALLED] in both fields. *)
Definition refresh_game_installation_status (on_disk : string → bool)
    (db : Store) : Store :=
  (λ r, if bool_decide (rec_install_dir r = NOT_INSTALLED) then r
        else if on_disk (rec_executable r) then r
        else {| rec_uuid := rec_uuid r; rec_name := rec_name r;
                rec_install_dir := NOT_INSTALLED; rec_executable := NOT_INSTALLED |})
  <$> db.

(** [str(x)] of an optional string. *)
Definition str (x : option string) : string := default "None" x.

(** [sep.join(l)] *)
Fixpoint join (sep : string) (l : list string) : string :=
  match l with
  | [] => ""
  | [x] => x
  | x :: rest => x +:+ sep +:+ join sep rest
  end.

(** ** What a run shows and whom it calls *)

Inductive Printable :=
| PText (s : string)
| PResult (r : Result)
| PExc (e : Exception)
| PTable (rows : list (string * string * string))
| PJson (games : list Game)
| PData (d : string).

(** Objects that are passed around as first-class values: [None], booleans,
    the context manager returned by [rich.console.Console.status], and
    anything else (functions, classes, modules). *)
Inductive PyObj :=
| PyNone
| PyBool (b : bool)
| PyRichStatus (message : string) (args : list Printable) (kwargs : list (string * string))
| PyOpaque.

Definition truthy (v : PyObj) : bool :=
  match v with
  | PyNone => false
  | PyBool b => b
  | PyRichStatus _ _ _ | PyOpaque => true
  end.

(** Output reaching the terminal. *)
Inductive Output :=
| RichPrint (args : list Printable) (kwargs : list (string * string))
| RichStatusStart (message : string) (args : list Printable) (kwargs : list (string * string))
| RichStatusStop (message : string)
| RichLog (text style : string)
| Stdout (x : Printable).

(** Calls that leave the command layer. *)
Inductive Call :=
| CLogin
| CRefreshGamesList
| CInitGamesDb
| CRefreshInstallationStatus
| CWriteGameRecord (r : InstallRecord)
| CDeleteGameRecord (uuid : option string)
| CInstallGame (game : option string) (method : option string)
| CUninstallGame (game : option string)
| CDownloadGame (game : option string)
| CGetGameFromUuid (uuid : option string)
| CGetUuidFromName (game : option string)
| CDumpGameData (game : option string)
| CSelect (message : string) (choices : list string)
| CInput (prompt : string)
| CMakedirs (path : string)
| CSubprocessRun (cmd : list string).

(** ** [heirloom/console.py] *)

Record Console := { quiet : bool }.

Section Heirloom.

(** State of everything outside the process: the remote service, the disk,
    the terminal the user answers prompts on. *)
Context {Ext : Type}.

Record World := {
  ext : Ext;
  config : gmap string string;      (* the string options of [self.config] *)
  db_bound : bool;                  (* [self.config] has the key ['db'] *)
  store : Store;                    (* the table behind [self.config['db']] *)
  games : list Game;                (* [self.heirloom.games] *)
  console : Console;                (* [self.console] *)
  user_id : option string;          (* [self.user_id] *)
  stdin : list string;              (* lines still to be read by [input] *)
  screen : list Output;             (* oldest first *)
  calls : list Call                 (* oldest first *)
}.

Definition M (A : Type) : Type := World → Outcome A * World.

#[global] Instance M_ret : MRet M := λ A a w, (Ok a, w).
#[global] Instance M_bind : MBind M := λ A B k m w,
  match m w with
  | (Ok a, w') => k a w'
  | (Raise e, w') => (Raise e, w')
  end.

#[global] Instance M_fmap : FMap M := λ A B f m w,
  match m w with
  | (Ok a, w') => (Ok (f a), w')
  | (Raise e, w') => (Raise e, w')
  end.

Definition raise {A} (e : Exception) : M A := λ w, (Raise e, w).
Definition gets {A} (f : World → A) : M A := λ w, (Ok (f w), w).
Definition modify (f : World → World) : M unit := λ w, (Ok tt, f w).

(** [try: body / except Exception as e: handler e] *)
Definition try_except {A} (body : M A) (handler : Exception → M A) : M A := λ w,
  match body w with
  | (Ok a, w') => (Ok a, w')
  | (Raise e, w') => handler e w'
  end.

Definition set_ext (x : Ext) (w : World) : World :=
  {| ext := x; config := config w; db_bound := db_bound w; store := store w;
     games := games w; console := console w; user_id := user_id w;
     stdin := stdin w; screen := screen w; calls := calls w |}.
Definition set_config (c : gmap string string) (w : World) : World :=
  {| ext := ext w; config := c; db_bound := db_bound w; store := store w;
     games := games w; console := console w; user_id := user_id w;
     stdin := stdin w; screen := screen w; calls := calls w |}.
Definition set_db (s : Store) (w : World) : World :=
  {| ext := ext w; config := config w; db_bound := true; store := s;
     games := games w; console := console w; user_id := user_id w;
     stdin := stdin w; screen := screen w; calls := calls w |}.
Definition set_store (s : Store) (w : World) : World :=
  {| ext := ext w; config := config w; db_bound := db_bound w; store := s;
     games := games w; console := console w; user_id := user_id w;
     stdin := stdin w; screen := screen w; calls := calls w |}.
Definition set_games (g : list Game) (w : World) : World :=
  {| ext := ext w; config := config w; db_bound := db_bound w; store := store w;
     games := g; console := console w; user_id := user_id w;
     stdin := stdin w; screen := screen w; calls := calls w |}.
Definition set_console (c : Console) (w : World) : World :=
  {| ext := ext w; config := config w; db_bound := db_bound w; store := store w;
     games := games w; console := c; user_id := user_id w;
     stdin := stdin w; screen := screen w; calls := calls w |}.
Definition set_user_id (u : option string) (w : World) : World :=
  {| ext := ext w; config := config w; db_bound := db_bound w; store := store w;
     games := games w; console := console w; user_id := u;
     stdin := stdin w; screen := screen w; calls := calls w |}.
Definition set_stdin (l : list string) (w : World) : World :=
  {| ext := ext w; config := config w; db_bound := db_bound w; store := store w;
     games := games w; console := console w; user_id := user_id w;
     stdin := l; screen := screen w; calls := calls w |}.
Definition show (o : Output) (w : World) : World :=
  {| ext := ext w; config := config w; db_bound := db_bound w; store := store w;
     games := games w; console := console w; user_id := user_id w;
     stdin := stdin w; screen := (screen w ++ [o])%list; calls := calls w |}.
Definition record_call (c : Call) (w : World) : World :=
  {| ext := ext w; config := config w; db_bound := db_bound w; store := store w;
     games := games w; console := console w; user_id := user_id w;
     stdin := stdin w; screen := screen w; calls := (calls w ++ [c])%list |}.

(** Run a collaborator on the external state. *)
Definition external {A} (c : Call) (f : Ext → Outcome A * Ext) : M A := λ w,
  let w1 := record_call c w in
  let '(r, x) := f (ext w1) in (r, set_ext x w1).

(** *** [rich.console.Console] *)

(** [RichConsole.print].  What rich makes of the text (markup tags, emoji
    codes) is not modelled: rendering is taken to succeed, as it does for text
    whose markup tags are balanced; rich raises [MarkupError] on a closing tag
    without an opening one. *)
Definition rich_print (args : list Printable) (kwargs : list (string * string)) : M unit :=
  modify (show (RichPrint args kwargs)).

(** [RichConsole.log(text, style=style)].  The style is looked up before
    anything is written.  ['info'], the default of [Console.log], is neither
    a style of rich's theme nor a colour, and looking it up raises
    [rich.errors.MissingStyle]; other style names are taken to exist. *)
Definition rich_log (text style : string) : M unit :=
  if bool_decide (style = "info") then raise (External "rich.errors.MissingStyle")
  else modify (show (RichLog text style)).

(** [RichConsole.status] returns a context manager; nothing is shown before it
    is entered. *)
Definition rich_status (message : string) (args : list Printable)
    (kwargs : list (string * string)) : M PyObj :=
  mret (PyRichStatus message args kwargs).

(** [with ctx: body].  The context expression is evaluated first; a value
    without [__enter__]/[__exit__] raises [TypeError] (CPython 3.11 and later;
    earlier versions raise [AttributeError] at the same point) and the body
    is not run.  The status object shows its message on entry and removes it
    on exit, also when the body raises. *)
Definition with_ {A} (ctx : M PyObj) (body : M A) : M A :=
  v ← ctx;
  match v with
  | PyRichStatus message args kwargs =>
      modify (show (RichStatusStart message args kwargs));;
      try_except
        (a ← body; modify (show (RichStatusStop message));; mret a)
        (λ e, modify (show (RichStatusStop message));; raise e)
  | PyNone =>
      raise (TypeError "'NoneType' object does not support the context manager protocol")
  | PyBool _ =>
      raise (TypeError "'bool' object does not support the context manager protocol")
  | PyOpaque =>
      raise (TypeError "object does not support the context manager protocol")
  end.

(** *** class [Console] *)

Definition Console_print (self : Console) (args : list Printable)
    (kwargs : list (string * string)) : M unit :=
  if negb (quiet self) then rich_print args kwargs else mret tt.

Definition Console_status (self : Console) (message : string)
    (args : list Printable) (kwargs : list (string * string)) : M PyObj :=
  (if negb (quiet self)
   then with_ (rich_status message args kwargs) (mret tt)
   else mret tt);;
  mret PyNone.

Definition Console_log (self : Console) (text : string) (style : string) : M unit :=
  if negb (quiet self) then rich_log text style else mret tt.

Definition Console_warn (self : Console) (text : string) : M unit :=
  if negb (quiet self)
  then rich_print [PText ("[bold yellow]Warning:[/bold yellow] " +:+ text)] [("style", "yellow")]
  else mret tt.

Definition Console_error (self : Console) (text : string) : M unit :=
  if negb (quiet self)
  then rich_print [PText ("[bold red]Error:[/bold red] " +:+ text)] [("style", "red")]
  else mret tt.

Definition Console_success (self : Console) (text : string) : M unit :=
  if negb (quiet self)
  then rich_print [PText ("[bold green]Success:[/bold green] " +:+ text)] [("style", "green")]
  else mret tt.

(** ** [heirloom/cli/__init__.py] *)

(** The collaborators whose source lies outside the two embedded files.  Each
    acts on the external state only: the [Heirloom] object is built from the
    configuration before the key ['db'] exists and is never handed the
    database, the console or the configuration afterwards. *)
Record Collaborators := {
  (* names bound by the four [from ... import *] lines *)
  star_imported : gmap string PyObj;
  (* the submodules of rich that some module has imported by the time a
     command runs; [import rich] itself imports none *)
  rich_submodule_loaded : string → bool;
  (* class Heirloom; [self.games] is passed where the method reads it *)
  heirloom_login : Ext → Outcome string * Ext;
  heirloom_refresh_games_list : Ext → Outcome (list Game) * Ext;
  heirloom_get_game_from_uuid : list Game → option string → Ext → Outcome (option string) * Ext;
  heirloom_get_uuid_from_name : list Game → option string → Ext → Outcome (option string) * Ext;
  heirloom_download_game : list Game → option string → string → Ext → Outcome string * Ext;
  heirloom_install_game : list Game → option string → option string → Ext → Outcome Result * Ext;
  heirloom_uninstall_game : list Game → option string → Ext → Outcome Result * Ext;
  heirloom_dump_game_data : list Game → option string → Ext → Outcome string * Ext;
  (* [inquirer.select(message, choices).execute()] *)
  inquirer_select : string → list string → Ext → Outcome string * Ext;
  (* os, subprocess *)
  os_path_expanduser : string → string;
  os_path_isdir : string → Ext → bool;
  os_path_exists : string → Ext → bool;
  os_makedirs : string → Ext → Outcome unit * Ext;
  subprocess_run : list string → Ext → Outcome string * Ext
}.

Context (C : Collaborators).

(** *** Name lookup *)

(** The module namespace after the module body has run: the imports of lines
    1-12, overridden by whatever the star imports of lines 13-16 bind,
    overridden by the definitions of lines 19-283. *)
Definition module_globals : gmap string PyObj :=
  list_to_map ((λ x, (x, PyOpaque)) <$> ["InstallationMethod"; "HeirloomManager"; "main"])
  ∪ star_imported C
  ∪ list_to_map ((λ x, (x, PyOpaque)) <$>
      ["os"; "json"; "shutil"; "subprocess"; "Enum"; "rich"; "typer";
       "inquirer"; "Annotated"; "Heirloom"; "Console"]).

(** The names of the Python builtins module are not listed: none of them is
    spelled [quiet], the only name looked up through [load_global]. *)
Definition load_global (x : string) : M PyObj :=
  match module_globals !! x with
  | Some v => mret v
  | None => raise (NameError x)
  end.

(** Reading a name inside a function: a parameter or assigned name of the
    function is a local (unbound until assigned), any other name is global. *)
Definition load_name (local_names : list string) (frame : gmap string PyObj)
    (x : string) : M PyObj :=
  if bool_decide (x ∈ local_names) then
    match frame !! x with
    | Some v => mret v
    | None => raise (UnboundLocalError x)
    end
  else load_global x.

(** *** Helpers of the embedding *)

Definition lift {A} (o : Outcome A) : M A := λ w, (o, w).

(** [self.config['db']] *)
Definition config_db : M Store := λ w,
  if db_bound w then (Ok (store w), w) else (Raise (KeyError "db"), w).

(** [self.config[key]] for a string option *)
Definition config_item (key : string) : M string :=
  c ← gets config;
  match c !! key with
  | Some v => mret v
  | None => raise (KeyError key)
  end.

(** [self.console.print(x)] and [self.console.status(message)] *)
Definition console_print (x : Printable) : M unit :=
  c ← gets console; Console_print c [x] [].
Definition console_status (message : string) : M PyObj :=
  c ← gets console; Console_status c message [] [].

(** The builtin [print(x)] *)
Definition print (x : Printable) : M unit := modify (show (Stdout x)).

(** The builtin [input(prompt)]: the prompt is written, a line is read; end of
    input raises [EOFError]. *)
Definition input (prompt : string) : M string :=
  modify (record_call (CInput prompt));;
  modify (show (Stdout (PText prompt)));;
  lines ← gets stdin;
  match lines with
  | [] => raise EOFError
  | line :: rest => modify (set_stdin rest);; mret line
  end.

(** [l[-1]] *)
Definition last_item (l : list string) : M string :=
  match last l with
  | Some x => mret x
  | None => raise IndexError
  end.

(** [refresh_game_installation_status(self.config['db'])] *)
Definition refresh_installation_status : M unit :=
  db ← config_db;
  modify (record_call CRefreshInstallationStatus);;
  x ← gets ext;
  modify (set_store (refresh_game_installation_status (λ p, os_path_exists C p x) db)).

Definition get_game_from_uuid (uuid : option string) : M (option string) :=
  gs ← gets games;
  external (CGetGameFromUuid uuid) (heirloom_get_game_from_uuid C gs uuid).

Definition get_uuid_from_name (game : option string) : M (option string) :=
  gs ← gets games;
  external (CGetUuidFromName game) (heirloom_get_uuid_from_name C gs game).

(** [self.heirloom.refresh_games_list()], which rebinds [self.heirloom.games] *)
Definition refresh_games_list : M unit :=
  gs ← external CRefreshGamesList (heirloom_refresh_games_list C);
  modify (set_games gs).

(** *** class [HeirloomManager] *)

Definition _init_console (quiet : bool) : M unit :=
  modify (set_console {| quiet := quiet |}).

(** The body of the loop of [merge_game_data_with_db] for one game. *)
Definition merge_game (each_game : Game) : M Game :=
  db ← config_db;
  record ← lift (read_game_record db (Some (installer_uuid each_game)) None);
  record ←
    (if negb (bool_decide (is_Some record)) then
       console_print (PText (":exclamation: Unable to read game record for UUID [green]"
                             +:+ installer_uuid each_game +:+ "[/green]!"));;
       db ← config_db;
       record ← lift (read_game_record db None (Some (game_name each_game)));
       (if negb (bool_decide (is_Some record)) then
          console_print (PText (":warning: Unable to read game record for game name [blue]"
                                +:+ game_name each_game +:+ "[/blue]!"))
        else mret tt);;
       mret record
     else mret record);
  match record with
  | Some r =>
      mret {| game_name := game_name each_game;
              installer_uuid := installer_uuid each_game;
              game_description := game_description each_game;
              install_dir := Some (rec_install_dir r);
              executable := Some (rec_executable r) |}
  | None => mret each_game
  end.

Fixpoint merge_games (gs : list Game) : M (list Game) :=
  match gs with
  | [] => mret []
  | g :: rest => g' ← merge_game g; rest' ← merge_games rest; mret (g' :: rest')
  end.

(** The game dictionaries are updated in place; rendering apart (see
    [rich_print]), the only statement of the loop that can raise is the read
    of [self.config['db']], and when it raises it does so in the first
    iteration, before any update. *)
Definition merge_game_data_with_db : M unit :=
  gs ← gets games;
  gs' ← merge_games gs;
  modify (set_games gs').

(** [[g['game_name'] for g in games if g['install_dir'] != 'Not Installed']] *)
Fixpoint installed_names (gs : list Game) : Outcome (list string) :=
  match gs with
  | [] => Ok []
  | g :: rest =>
      match install_dir g with
      | None => Raise (KeyError "install_dir")
      | Some d =>
          match installed_names rest with
          | Ok l => Ok (if bool_decide (d ≠ NOT_INSTALLED) then game_name g :: l else l)
          | Raise e => Raise e
          end
      end
  end.

Definition select_from_games_list (installed_only : bool) : M string :=
  refresh_games_list;;
  gs ← gets games;
  if negb installed_only then
    let choices := game_name <$> gs in
    external (CSelect "Select a game: " choices) (inquirer_select C "Select a game: " choices)
  else
    choices ← lift (installed_names gs);
    external (CSelect "Select a game: " choices) (inquirer_select C "Select a game: " choices).

Definition login (quiet : bool) : M unit :=
  _init_console quiet;;
  try_except
    (with_ (console_status "Logging in to Legacy Games...")
       (uid ← external CLogin (heirloom_login C);
        modify (set_user_id (Some uid))))
    (λ e,
       console_print (PText ":exclamation: Unable to log in to Legacy Games!");;
       console_print (PExc e);;
       raise e).

Definition refresh (quiet : bool) : M unit :=
  login quiet;;
  try_except
    (with_ (console_status "Refreshing games list...") refresh_games_list;;
     with_ (console_status "Initializing database...")
       (gs ← gets games;
        modify (record_call CInitGamesDb);;
        modify (λ w, set_db (init_games_db (store w) gs) w));;
     with_ (console_status "Merging database into game data...")
       merge_game_data_with_db;;
     refresh_installation_status)
    (λ e,
       console_print (PText ":exclamation: Unable to refresh games list!");;
       console_print (PExc e);;
       raise e).

(** The filtering loop of [list_games] (lines 134-148); [game_data] is built
    and dropped, the catalog entry itself is appended. *)
Fixpoint list_games_loop (installed not_installed : bool) (gs : list Game)
    : M (list Game) :=
  match gs with
  | [] => mret []
  | g :: rest =>
      db ← config_db;
      record ← lift (read_game_record db None (Some (game_name g)));
      let skip :=
        match record with
        | Some r =>
            if bool_decide (rec_install_dir r ≠ NOT_INSTALLED) then not_installed
            else installed
        | None => false
        end in
      games_list ← list_games_loop installed not_installed rest;
      mret (if skip then games_list else g :: games_list)
  end.

(** [rich.<name>] after the bare [import rich] of line 7: the package has the
    attribute only if the submodule has been imported somewhere. *)
Definition rich_submodule (name : string) : M unit :=
  if rich_submodule_loaded C name then mret tt
  else raise (AttributeError ("module 'rich' has no attribute '" +:+ name +:+ "'")).

(** Lines 149-158 of [list_games]: the listing is written as JSON with the
    builtin [print], or put row by row in a table that goes through the
    console.  [rich.table.Table] is looked up before its keyword argument
    [rich.box.ROUNDED]. *)
Definition list_games_show (json_output : bool) (games_list : list Game) : M unit :=
  if json_output then print (PJson games_list)
  else
    rich_submodule "table";;
    rich_submodule "box";;
    let table :=
      (λ game, (game_name game, installer_uuid game, game_description game))
      <$> games_list in
    console_print (PTable table).

(** Lines 130-158 of [list_games], after the call of [refresh]. *)
Definition list_games_body (installed not_installed json_output : bool) : M unit :=
  let '(installed, not_installed) :=
    if installed && not_installed then (false, false)
    else (installed, not_installed) in
  refresh_installation_status;;
  gs ← gets games;
  games_list ← list_games_loop installed not_installed gs;
  list_games_show json_output games_list.

Definition list_games (quiet installed not_installed json_output : bool) : M unit :=
  refresh quiet;;
  list_games_body installed not_installed json_output.

Definition download_game (quiet : bool) (game uuid : option string) : M unit :=
  refresh quiet;;
  game ← (if truthy_str uuid then get_game_from_uuid uuid else mret game);
  game ← (if negb (truthy_str game) then Some <$> select_from_games_list false
          else mret game);
  gs ← gets games;
  fn ← external (CDownloadGame game) (heirloom_download_game C gs game "./");
  console_print (PText ("Successfully downloaded [bold blue]" +:+ str game
                        +:+ "[/bold blue] setup executable as [green]" +:+ fn
                        +:+ "[/green]")).

(** Lines 204-219 of [install_game]: what is done with the backend's result.
    [answer] is a local that only the two executable branches assign. *)
Definition install_game_commit (game uuid : option string) (result : Result) : M unit :=
  if bool_decide (status result = Some "success") then
    install_path ← (match install_path result with
                    | Some p => mret p
                    | None => raise (KeyError "install_path")
                    end);
    console_print (PText ("Installation to [green]" +:+ install_path
                          +:+ "[/green] successful! :grin:"));;
    answer ←
      (if truthy_list (executable_files result)
          && bool_decide (length (default [] (executable_files result)) = 1) then
         first ← (match default [] (executable_files result) with
                  | x :: _ => mret x
                  | [] => raise IndexError
                  end);
         executable_file ← last_item (split "/"%char first);
         wine_path ← config_item "wine_path";
         console_print (PText ("To start game, run: [yellow]" +:+ wine_path +:+ " '"
                               +:+ install_path +:+ "\" +:+ executable_file +:+ "'"));;
         mret (Some (install_path +:+ "\" +:+ executable_file))
       else if truthy_list (executable_files result)
               && bool_decide (1 < length (default [] (executable_files result))) then
         console_print (PText ":exclamation: Ambiguous executable detected!");;
         let choices := default [] (executable_files result) in
         answer ← external
                    (CSelect "Select the executable used to launch the game: " choices)
                    (inquirer_select C "Select the executable used to launch the game: " choices);
         executable_file ← last_item (split "/"%char answer);
         wine_path ← config_item "wine_path";
         console_print (PText ("To start game, run: [yellow]" +:+ wine_path +:+ " '"
                               +:+ install_path +:+ "\" +:+ executable_file +:+ "'"));;
         mret (Some (install_path +:+ "\" +:+ executable_file))
       else mret None);
    db ← config_db;
    match answer with
    | None => raise (UnboundLocalError "answer")
    | Some answer =>
        modify (record_call (CWriteGameRecord
                  {| rec_uuid := uuid; rec_name := game;
                     rec_install_dir := install_path; rec_executable := answer |}));;
        modify (set_store (write_game_record db game uuid install_path answer))
    end
  else
    console_print (PResult result);;
    console_print (PText "[bold]Installation was [red italic]unsuccessful[/red italic]! :frowning:").

(** Lines 200-219 of [install_game]: the backend is run and its result is
    handled. *)
Definition install_game_perform (game uuid : option string)
    (install_method : option InstallationMethod) : M unit :=
  gs ← gets games;
  result ←
    (match install_method with
     | Some m =>
         external (CInstallGame game (Some (InstallationMethod_value m)))
           (heirloom_install_game C gs game (Some (InstallationMethod_value m)))
     | None =>
         external (CInstallGame game None) (heirloom_install_game C gs game None)
     end);
  install_game_commit game uuid result.

(** The loop of lines 189-190.  Each round reads one line or raises
    [EOFError]; started with one round more than there are lines left, the
    count never runs out. *)
Fixpoint base_install_dir_loop (rounds : nat) : M unit :=
  c ← gets config;
  if negb (truthy_str (c !! "base_install_dir")) then
    match rounds with
    | 0 => raise EOFError
    | S rounds' =>
        line ← input "Enter base installation folder: ";
        modify (set_config (<["base_install_dir" := line]> c));;
        base_install_dir_loop rounds'
    end
  else mret tt.

(** Lines 187-219 of [install_game], after the call of [refresh]. *)
Definition install_game_body (game uuid : option string)
    (install_method : option InstallationMethod) : M unit :=
  refresh_installation_status;;
  merge_game_data_with_db;;
  n ← gets (λ w, length (stdin w));
  base_install_dir_loop (S n);;
  base ← config_item "base_install_dir";
  x ← gets ext;
  (if negb (os_path_isdir C (os_path_expanduser C base) x) then
     external (CMakedirs (os_path_expanduser C base))
       (os_makedirs C (os_path_expanduser C base))
   else mret tt);;
  '(game, uuid) ←
    (if negb (truthy_str game) && negb (truthy_str uuid) then
       game ← select_from_games_list false;
       uuid ← get_uuid_from_name (Some game);
       mret (Some game, uuid)
     else mret (game, uuid));
  game ← (if truthy_str uuid && negb (truthy_str game) then get_game_from_uuid uuid
          else mret game);
  uuid ← (if truthy_str game && negb (truthy_str uuid) then get_uuid_from_name game
          else mret uuid);
  install_game_perform game uuid install_method.

(** The parameters of [install_game] and the names its body assigns. *)
Definition install_game_locals : list string :=
  ["self"; "game"; "uuid"; "install_method"; "result"; "executable_file"; "answer"].

(** The frame of [install_game] on entry: the parameters are bound. *)
Definition install_game_frame : gmap string PyObj :=
  list_to_map ((λ x, (x, PyOpaque)) <$> ["self"; "game"; "uuid"; "install_method"]).

Definition install_game (game uuid : option string)
    (install_method : option InstallationMethod) : M unit :=
  quiet ← load_name install_game_locals install_game_frame "quiet";
  refresh (truthy quiet);;
  install_game_body game uuid install_method.

Definition info (quiet : bool) (game uuid : option string) : M unit :=
  refresh quiet;;
  merge_game_data_with_db;;
  game ← (if truthy_str uuid then get_game_from_uuid uuid else mret game);
  game ← (if negb (truthy_str game) then Some <$> select_from_games_list false
          else mret game);
  gs ← gets games;
  d ← external (CDumpGameData game) (heirloom_dump_game_data C gs game);
  print (PData d).

(** Lines 254-259 of [uninstall]: what is done with the backend's result. *)
Definition uninstall_commit (game uuid : option string) (result : Result) : M unit :=
  if bool_decide (status result = Some "success") then
    console_print (PText ("Uninstallation of " +:+ str game +:+ " successful! :grin:"));;
    db ← config_db;
    modify (record_call (CDeleteGameRecord uuid));;
    modify (set_store (delete_game_record db uuid))
  else
    console_print (PResult result);;
    console_print (PText "[bold]Uninstallation was [red italic]unsuccessful[/red italic]! :frowning:").

(** Lines 253-259 of [uninstall]: the backend is run on the resolved title
    and its result is handled. *)
Definition uninstall_run (game uuid : option string) : M unit :=
  gs ← gets games;
  result ← external (CUninstallGame game) (heirloom_uninstall_game C gs game);
  uninstall_commit game uuid result.

(** Lines 249-259 of [uninstall]: the title is resolved, then removed. *)
Definition uninstall_perform (game uuid : option string) : M unit :=
  game ← (if truthy_str uuid then get_game_from_uuid uuid else mret game);
  game ← (if negb (truthy_str game) then Some <$> select_from_games_list true
          else mret game);
  uninstall_run game uuid.

Definition uninstall (quiet : bool) (game uuid : option string) : M unit :=
  refresh quiet;;
  refresh_installation_status;;
  uninstall_perform game uuid.

Definition launch (quiet : bool) (game uuid : option string) : M unit :=
  refresh quiet;;
  game ← (if negb (truthy_str game) then Some <$> select_from_games_list true
          else mret game);
  '(game, uuid) ←
    (if truthy_str uuid then game ← get_game_from_uuid uuid; mret (game, uuid)
     else uuid ← get_uuid_from_name game; mret (game, uuid));
  db ← config_db;
  record ← lift (read_game_record db uuid None);
  wine_path ← config_item "wine_path";
  executable ← (match record with
                | Some r => mret (rec_executable r)
                | None => raise (TypeError "'NoneType' object is not subscriptable")
                end);
  let cmd := [wine_path; "'" +:+ executable +:+ "'"] in
  with_ (console_status ("Running: [yellow]" +:+ join " " cmd +:+ "[/yellow]"))
    (out ← external (CSubprocessRun cmd) (subprocess_run C cmd);
     console_print (PText out)).

(** Lines 170-175 of [download_game], after the call of [refresh]. *)
Definition download_game_body (game uuid : option string) : M unit :=
  game ← (if truthy_str uuid then get_game_from_uuid uuid else mret game);
  game ← (if negb (truthy_str game) then Some <$> select_from_games_list false
          else mret game);
  gs ← gets games;
  fn ← external (CDownloadGame game) (heirloom_download_game C gs game "./");
  console_print (PText ("Successfully downloaded [bold blue]" +:+ str game
                        +:+ "[/bold blue] setup executable as [green]" +:+ fn
                        +:+ "[/green]")).

(** Lines 231-236 of [info], after the call of [refresh]. *)
Definition info_body (game uuid : option string) : M unit :=
  merge_game_data_with_db;;
  game ← (if truthy_str uuid then get_game_from_uuid uuid else mret game);
  game ← (if negb (truthy_str game) then Some <$> select_from_games_list false
          else mret game);
  gs ← gets games;
  d ← external (CDumpGameData game) (heirloom_dump_game_data C gs game);
  print (PData d).

(** Lines 271-281 of [launch], after the call of [refresh]. *)
Definition launch_body (game uuid : option string) : M unit :=
  game ← (if negb (truthy_str game) then Some <$> select_from_games_list true
          else mret game);
  '(game, uuid) ←
    (if truthy_str uuid then game ← get_game_from_uuid uuid; mret (game, uuid)
     else uuid ← get_uuid_from_name game; mret (game, uuid));
  db ← config_db;
  record ← lift (read_game_record db uuid None);
  wine_path ← config_item "wine_path";
  executable ← (match record with
                | Some r => mret (rec_executable r)
                | None => raise (TypeError "'NoneType' object is not subscriptable")
                end);
  let cmd := [wine_path; "'" +:+ executable +:+ "'"] in
  with_ (console_status ("Running: [yellow]" +:+ join " " cmd +:+ "[/yellow]"))
    (out ← external (CSubprocessRun cmd) (subprocess_run C cmd);
     console_print (PText out)).

(** Lines 189-192 of [install_game]: the base installation folder is asked
    for until the configuration has one, and created when it is missing. *)
Definition ensure_base_install_dir : M unit :=
  n ← gets (λ w, length (stdin w));
  base_install_dir_loop (S n);;
  base ← config_item "base_install_dir";
  x ← gets ext;
  if negb (os_path_isdir C (os_path_expanduser C base) x) then
    external (CMakedirs (os_path_expanduser C base))
      (os_makedirs C (os_path_expanduser C base))
  else mret tt.

(** Lines 193-199 of [install_game]: the name and the uuid of the title are
    completed from one another, or from the prompt when both are missing. *)
Definition install_game_resolve (game uuid : option string)
    : M (option string * option string) :=
  '(game, uuid) ←
    (if negb (truthy_str game) && negb (truthy_str uuid) then
       game ← select_from_games_list false;
       uuid ← get_uuid_from_name (Some game);
       mret (Some game, uuid)
     else mret (game, uuid));
  game ← (if truthy_str uuid && negb (truthy_str game) then get_game_from_uuid uuid
          else mret game);
  uuid ← (if truthy_str game && negb (truthy_str uuid) then get_uuid_from_name game
          else mret uuid);
  mret (game, uuid).

End Heirloom.

(** ** A scripted outside world

    A concrete instance of the collaborators, used to run the commands: the
    paths on disk, the results the installer and the uninstaller are going to
    report, and the choices the user is going to make at the prompts are
    fixed in advance. *)
Module Scripted.

Record Ext := {
  disk : list string;
  install_result : Result;
  uninstall_result : Result;
  picks : list string
}.

Definition set_disk (d : list string) (x : Ext) : Ext :=
  {| disk := d; install_result := install_result x;
     uninstall_result := uninstall_result x; picks := picks x |}.
Definition set_picks (p : list string) (x : Ext) : Ext :=
  {| disk := disk x; install_result := install_result x;
     uninstall_result := uninstall_result x; picks := p |}.

Definition catalog : list Game :=
  [ {| game_name := "Mystery Case Files"; installer_uuid := "uuid-1";
       game_description := "Hidden objects"; install_dir := None; executable := None |};
    {| game_name := "Jewel Quest"; installer_uuid := "uuid-2";
       game_description := "Match three"; install_dir := None; executable := None |} ].

Definition collaborators : @Collaborators Ext := {|
  star_imported :=
    list_to_map ((λ x, (x, PyOpaque)) <$>
      ["get_encryption_key"; "set_encryption_key"; "get_config"; "init_games_db";
       "read_game_record"; "write_game_record"; "delete_game_record";
       "refresh_game_installation_status"]);
  rich_submodule_loaded := λ name, bool_decide (name ∈ ["console"; "text"; "table"; "box"]);
  heirloom_login := λ x, (Ok "user-1", x);
  heirloom_refresh_games_list := λ x, (Ok catalog, x);
  heirloom_get_game_from_uuid := λ gs uuid x,
    (Ok (game_name <$> find (λ g, bool_decide (Some (installer_uuid g) = uuid)) gs), x);
  heirloom_get_uuid_from_name := λ gs game x,
    (Ok (installer_uuid <$> find (λ g, bool_decide (Some (game_name g) = game)) gs), x);
  heirloom_download_game := λ gs game output_dir x,
    (Ok (output_dir +:+ str game +:+ ".exe"), x);
  heirloom_install_game := λ gs game method x,
    (Ok (install_result x),
     set_disk (default [] (executable_files (install_result x)) ++ disk x)%list x);
  heirloom_uninstall_game := λ gs game x, (Ok (uninstall_result x), set_disk [] x);
  heirloom_dump_game_data := λ gs game x, (Ok (str game), x);
  (* the user can only pick one of the choices shown; a scripted pick that
     is not on offer, or no pick at all, is the user giving up *)
  inquirer_select := λ message choices x,
    match picks x with
    | p :: rest =>
        if bool_decide (p ∈ choices) then (Ok p, set_picks rest x)
        else (Raise (External "KeyboardInterrupt"), x)
    | [] => (Raise (External "KeyboardInterrupt"), x)
    end;
  os_path_expanduser := λ p, p;
  os_path_isdir := λ p x, bool_decide (p ∈ disk x);
  os_path_exists := λ p x, bool_decide (p ∈ disk x);
  os_makedirs := λ p x, (Ok tt, set_disk (p :: disk x) x);
  subprocess_run := λ cmd x, (Ok "", x)
|}.

Definition succeeded (path : string) (files : list string) : Result :=
  {| status := Some "success"; install_path := Some path;
     executable_files := Some files |}.

Definition failed : Result :=
  {| status := Some "error"; install_path := None; executable_files := None |}.

(** The manager after a refresh: the database is bound and holds the
    placeholders of the catalog. *)
Definition world (x : Ext) : @World Ext :=
  {| ext := x;
     config := {[ "wine_path" := "/usr/bin/wine"; "base_install_dir" := "/games" ]};
     db_bound := true;
     store := init_games_db [] catalog;
     games := catalog;
     console := {| quiet := false |};
     user_id := Some "user-1";
     stdin := [];
     screen := [];
     calls := [] |}.

Definition outside (installer uninstaller : Result) (choices : list string) : Ext :=
  {| disk := []; install_result := installer; uninstall_result := uninstaller;
     picks := choices |}.

(** The manager after [Mystery Case Files] has been installed in that world. *)
Definition world_installed (x : Ext) : @World Ext :=
  set_store
    (write_game_record (store (world x)) (Some "Mystery Case Files") (Some "uuid-1")
       "/games/MCF" "/games/MCF\Game.exe")
    (world x).

(** The manager before any refresh, with nothing configured: no database, no
    base installation folder, no wine path; [lines] are still to be read. *)
Definition world_unconfigured (lines : list string) (x : Ext) : @World Ext :=
  {| ext := x;
     config := ∅;
     db_bound := false;
     store := [];
     games := catalog;
     console := {| quiet := false |};
     user_id := None;
     stdin := lines;
     screen := [];
     calls := [] |}.


End Scripted.

(** * Properties *)

(** Unfold the monad's operations and compute. *)
Ltac run :=
  repeat (progress (unfold mbind, M_bind, mret, M_ret, fmap, M_fmap, gets,
                      modify, raise, lift, external, try_except, console_print,
                      Console_print, rich_print, config_item, config_db,
                      last_item; cbn)).

Section Properties.

Context {Ext : Type} (C : @Collaborators Ext).
Implicit Types (w : @World Ext) (self : Console).

(** Two worlds that differ at most in the console object and in what is on
    the screen. *)
Definition only_console_changed w w' : Prop :=
  ext w' = ext w ∧ config w' = config w ∧ db_bound w' = db_bound w ∧
  store w' = store w ∧ games w' = games w ∧ user_id w' = user_id w ∧
  stdin w' = stdin w ∧ calls w' = calls w.

(** What [with None:] raises. *)
Definition not_a_context_manager : Exception :=
  TypeError "'NoneType' object does not support the context manager protocol".

(** The installer backend did not report success: it raised, or the status
    of its result is not ['success']. *)
Definition install_backend_failed (game : option string)
    (install_method : option InstallationMethod) w : Prop :=
  match heirloom_install_game C (games w) game
          (InstallationMethod_value <$> install_method) (ext w) with
  | (Ok result, _) => status result ≠ Some "success"
  | (Raise _, _) => True
  end.

(** The last ['/']-separated component of a path, [s.split('/')[-1]]. *)
Definition last_component (s : string) : string :=
  default s (last (split "/" s)).

(** The record that lines 204-216 write for a resolved executable. *)
Definition committed_record (game uuid : option string) (p e : string)
    : InstallRecord :=
  {| rec_uuid := uuid; rec_name := game; rec_install_dir := p;
     rec_executable := p +:+ "\" +:+ last_component e |}.

(** Nothing but the screen differs between the two worlds. *)
Definition only_screen_changed w w' : Prop :=
  only_console_changed w w' ∧ console w' = console w.

(** A game with the two fields of a record written into it. *)
Definition with_record (g : Game) (r : InstallRecord) : Game :=
  {| game_name := game_name g; installer_uuid := installer_uuid g;
     game_description := game_description g;
     install_dir := Some (rec_install_dir r);
     executable := Some (rec_executable r) |}.

(** The record that [merge_game_data_with_db] uses for a game: the one of its
    uuid, else the first one of its name. *)
Definition record_of (db : Store) (g : Game) : option InstallRecord :=
  match find (λ r, bool_decide (rec_uuid r = Some (installer_uuid g))) db with
  | Some r => Some r
  | None => find (λ r, bool_decide (rec_name r = Some (game_name g))) db
  end.

Definition merged (db : Store) (g : Game) : Game :=
  match record_of db g with
  | Some r => with_record g r
  | None => g
  end.

(** What [merge_game_data_with_db] prints about a game on a console that is
    not quiet. *)
Definition merge_messages (db : Store) (g : Game) : list Output :=
  match find (λ r, bool_decide (rec_uuid r = Some (installer_uuid g))) db with
  | Some _ => []
  | None =>
      RichPrint [PText (":exclamation: Unable to read game record for UUID [green]"
                        +:+ installer_uuid g +:+ "[/green]!")] []
      :: match find (λ r, bool_decide (rec_name r = Some (game_name g))) db with
         | Some _ => []
         | None =>
             [RichPrint [PText (":warning: Unable to read game record for game name [blue]"
                                +:+ game_name g +:+ "[/blue]!")] []]
         end
  end.

(** The choices of the prompt of [select_from_games_list]. *)
Definition choices_of (installed_only : bool) (gs : list Game) : list string :=
  if installed_only
  then game_name <$> filter (λ g, install_dir g ≠ Some NOT_INSTALLED) gs
  else game_name <$> gs.

(** Whether the loop of [list_games] keeps a game: one whose first record by
    name is installed is dropped by [--not-installed], one whose first record
    is not installed is dropped by [--installed], one without a record is
    kept. *)
Definition listed (db : Store) (installed not_installed : bool) (g : Game) : bool :=
  match find (λ r, bool_decide (rec_name r = Some (game_name g))) db with
  | Some r =>
      if bool_decide (rec_install_dir r ≠ NOT_INSTALLED) then negb not_installed
      else negb installed
  | None => true
  end.

(** The calls that only find out which title is meant. *)
Definition is_lookup (c : Call) : bool :=
  match c with
  | CRefreshGamesList | CGetGameFromUuid _ | CGetUuidFromName _ | CSelect _ _ => true
  | _ => false
  end.

Definition is_download (c : Call) : bool :=
  match c with CDownloadGame _ => true | _ => false end.

Definition is_dump (c : Call) : bool :=
  match c with CDumpGameData _ => true | _ => false end.

(** From [w] to [w'] the store, the binding of the database and the
    configuration are untouched, and the calls made since are all allowed. *)
Definition within (allowed : Call → bool) w w' : Prop :=
  store w' = store w ∧ db_bound w' = db_bound w ∧ config w' = config w
  ∧ ∃ l, calls w' = calls w ++ l ∧ Forall (λ c, allowed c = true) l.

(** A computation that stays [within] the allowed calls from every world,
    whether it returns or raises. *)
Definition keeps {A} (allowed : Call → bool) (m : M A) : Prop :=
  ∀ w, within allowed w (m w).2.

(** A computation that never returns normally. *)
Definition always_raises {A} (m : M A) : Prop :=
  ∀ w, ∃ e, (m w).1 = Raise e.

Definition base_dir_prompt : string := "Enter base installation folder: ".


(** The texts that a command interpolates into what it prints are rendered
    as they are: the console is quiet, so that nothing is rendered at all, or
    none of them holds markup of its own. *)
Definition renders w (texts : list string) : Prop :=
  quiet (console w) = true ∨ Forall (λ s, no_markup s = true) texts.


(** Two worlds that differ at most in the table of the store. *)
Definition same_but_store w1 w2 : Prop :=
  ext w1 = ext w2 ∧ config w1 = config w2 ∧ db_bound w1 = db_bound w2
  ∧ games w1 = games w2 ∧ console w1 = console w2 ∧ user_id w1 = user_id w2
  ∧ stdin w1 = stdin w2 ∧ screen w1 = screen w2 ∧ calls w1 = calls w2.

(** A computation on which the table of the store has no influence: from two
    worlds that differ in it alone, the outcome is the same and the worlds
    reached still differ in it alone. *)
Definition store_blind {A} (m : M A) : Prop :=
  ∀ w1 w2, same_but_store w1 w2 →
    (m w1).1 = (m w2).1 ∧ same_but_store (m w1).2 (m w2).2.

Lemma Console_status_None self message args kwargs w :
  ∃ w', Console_status self message args kwargs w = (Ok PyNone, w')
        ∧ only_console_changed w w' ∧ console w' = console w.
Proof.
  destruct self as [[]]; eexists; (split; [reflexivity|]);
    repeat split; reflexivity.
Qed.

Lemma login_raises quiet w :
  ∃ w', login C quiet w = (Raise not_a_context_manager, w')
        ∧ only_console_changed w w'.
Proof.
  destruct quiet; eexists; (split; [reflexivity|]); repeat split; reflexivity.
Qed.

Lemma refresh_raises quiet w :
  ∃ w', refresh C quiet w = (Raise not_a_context_manager, w')
        ∧ only_console_changed w w'.
Proof.
  destruct (login_raises quiet w) as (w' & Hrun & Hsame).
  exists w'. split; [|done].
  unfold refresh, mbind, M_bind. by rewrite Hrun.
Qed.

(** A command that starts with [self.refresh(quiet)] ends there. *)
Lemma after_refresh_unreached {A} quiet (body : M A) w :
  ∃ w', (refresh C quiet;; body) w = (Raise not_a_context_manager, w')
        ∧ only_console_changed w w'.
Proof.
  destruct (refresh_raises quiet w) as (w' & Hrun & Hsame).
  exists w'. split; [|done].
  unfold mbind, M_bind. by rewrite Hrun.
Qed.

Lemma quiet_is_not_a_local : "quiet" ∉ install_game_locals.
Proof. apply (bool_decide_unpack _). by vm_compute. Qed.

Lemma quiet_is_not_global :
  star_imported C !! "quiet" = None → module_globals C !! "quiet" = None.
Proof.
  intros Hstar. unfold module_globals.
  rewrite !lookup_union_None. split_and!; [by vm_compute|done|by vm_compute].
Qed.

Lemma install_game_raises game uuid install_method w :
  star_imported C !! "quiet" = None →
  install_game C game uuid install_method w = (Raise (NameError "quiet"), w).
Proof.
  intros Hstar. unfold install_game, load_name.
  rewrite bool_decide_eq_false_2 by apply quiet_is_not_a_local.
  unfold load_global. by rewrite quiet_is_not_global.
Qed.

(** C1. When the installer backend fails, lines 200-219 of [install_game]
    leave the record store as it was: the table and the binding of the
    database are unchanged, and the only call made is the one to the backend,
    so [write_game_record] is not called. *)
Theorem failed_install_commits_nothing game uuid install_method w :
  install_backend_failed game install_method w →
  let w' := (install_game_perform C game uuid install_method w).2 in
  store w' = store w ∧ db_bound w' = db_bound w ∧
  calls w' = calls w ++ [CInstallGame game (InstallationMethod_value <$> install_method)].
Proof.
  unfold install_backend_failed, install_game_perform.
  destruct w as [x cfg bound st gs [q] uid sin scr cl].
  destruct install_method as [m|]; run;
    (destruct (heirloom_install_game _ _ _ _ _) as [[result|e] x']; run;
     [|done]);
    intros Hfail; unfold install_game_commit;
    rewrite bool_decide_eq_false_2 by done; by destruct q.
Qed.

Lemma split_not_nil sep s : split sep s ≠ [].
Proof.
  destruct s as [|c rest]; cbn; [done|].
  case_bool_decide; [done|]. by destruct (split sep rest).
Qed.

Example split_path : split "/" "MCF/bin/Game.exe" = ["MCF"; "bin"; "Game.exe"].
Proof. reflexivity. Qed.

(** Joining the pieces with the separator gives the string back. *)
Lemma join_split s : join "/" (split "/" s) = s.
Proof.
  induction s as [|c rest IH]; [done|]. cbn [split].
  pose proof (split_not_nil "/" rest) as Hne.
  destruct (split "/" rest) as [|piece pieces]; [done|].
  case_bool_decide as Hc.
  - subst c. change (join "/" ("" :: piece :: pieces))
      with ("/" +:+ join "/" (piece :: pieces)). by rewrite IH.
  - rewrite <- IH. by destruct pieces.
Qed.

Lemma last_split s : last (split "/" s) = Some (last_component s).
Proof.
  unfold last_component.
  destruct (last (split "/" s)) as [e|] eqn:Hlast; [done|].
  apply last_None in Hlast. by apply split_not_nil in Hlast.
Qed.

(** C3. A successful installation that reports no executable ([[]] or no
    list at all) makes lines 204-219 of [install_game] end in
    [UnboundLocalError] for the local [answer], raised while the arguments of
    [write_game_record] are evaluated: the store and the calls made are as
    before, only the success message has been printed. *)
Theorem no_executable_leaves_answer_unbound game uuid result p w :
  status result = Some "success" →
  install_path result = Some p →
  truthy_list (executable_files result) = false →
  db_bound w = true →
  ∃ w', install_game_commit C game uuid result w
          = (Raise (UnboundLocalError "answer"), w')
        ∧ only_console_changed w w'.
Proof.
  intros Hstatus Hpath Hfiles Hbound.
  destruct w as [x cfg bound st gs [q] uid sin scr cl]. cbn in Hbound. subst bound.
  unfold install_game_commit.
  rewrite bool_decide_eq_true_2, Hpath, Hfiles by done.
  destruct q; eexists; (split; [reflexivity|]); repeat split; reflexivity.
Qed.


Lemma delete_game_record_absent db uuid :
  Forall (λ r, rec_uuid r ≠ uuid) db → delete_game_record db uuid = db.
Proof.
  unfold delete_game_record. induction 1 as [|r db Hr _ IH]; [done|].
  rewrite filter_cons_True by done. by rewrite IH.
Qed.

Lemma delete_game_record_gone db u :
  read_game_record (delete_game_record db (Some u)) (Some u) None = Ok None.
Proof.
  unfold read_game_record, delete_game_record. f_equal.
  induction db as [|r db IH]; [done|].
  destruct (decide (rec_uuid r = Some u)) as [Heq|Hne].
  - by rewrite filter_cons_False by (by intros []).
  - rewrite filter_cons_True by done. cbn.
    by rewrite bool_decide_eq_false_2.
Qed.

Lemma uninstall_run_outcome game uuid result x' w :
  db_bound w = true →
  heirloom_uninstall_game C (games w) game (ext w) = (Ok result, x') →
  ∃ w', uninstall_run C game uuid w = (Ok tt, w')
        ∧ calls w' = calls w ++ CUninstallGame game ::
            (if bool_decide (status result = Some "success")
             then [CDeleteGameRecord uuid] else [])
        ∧ store w' =
            (if bool_decide (status result = Some "success")
             then delete_game_record (store w) uuid else store w).
Proof.
  intros Hbound Hbackend.
  destruct w as [x cfg bound st gs [q] uid sin scr cl].
  cbn in Hbound, Hbackend. subst bound.
  unfold uninstall_run, uninstall_commit. run. rewrite Hbackend.
  case_bool_decide; destruct q; run;
    eexists; (split; [reflexivity|]); split; cbn; by rewrite <- ?app_assoc.
Qed.

(** One round more than there are lines left is enough for the loop of lines
    189-190: further rounds change nothing. *)
Lemma base_install_dir_loop_rounds n m w :
  length (stdin w) < n → (n ≤ m)%nat →
  base_install_dir_loop n w = base_install_dir_loop m w.
Proof.
  revert m w. induction n as [|n IH]; intros m w Hlen Hle; [lia|].
  destruct m as [|m]; [lia|].
  destruct w as [x cfg bound st gs q uid sin scr cl]. cbn in Hlen.
  cbn [base_install_dir_loop]. unfold input. run.
  destruct (truthy_str (cfg !! "base_install_dir")); [done|]. cbn.
  destruct sin as [|line rest]; [done|]. cbn.
  apply IH; cbn in *; lia.
Qed.

(** The other path of [uninstall]: given the uuid, a successful removal
    deletes the record of that uuid. *)
Lemma uninstall_by_uuid_deletes_record game u result x' w :
  db_bound w = true →
  heirloom_uninstall_game C (games w) game (ext w) = (Ok result, x') →
  status result = Some "success" →
  ∃ w', uninstall_run C game (Some u) w = (Ok tt, w')
        ∧ read_game_record (store w') (Some u) None = Ok None.
Proof.
  intros Hbound Hbackend Hstatus.
  destruct (uninstall_run_outcome game (Some u) result x' w)
    as (w' & Hrun & _ & Hstore); [done..|].
  exists w'. split; [done|].
  rewrite Hstore, bool_decide_eq_true_2 by done. apply delete_game_record_gone.
Qed.


(** C2. [uninstall] given the name of the title and no uuid passes
    [uuid=None] to [delete_game_record]: after a successful removal the store
    is the one it started with, so a record written by [install_game] for the
    title is still there. *)
Theorem uninstall_by_name_deletes_no_record game result x' w :
  truthy_str game = true →
  db_bound w = true →
  heirloom_uninstall_game C (games w) game (ext w) = (Ok result, x') →
  status result = Some "success" →
  Forall (λ r, rec_uuid r ≠ None) (store w) →
  ∃ w', uninstall_perform C game None w = (Ok tt, w')
        ∧ calls w' = calls w ++ [CUninstallGame game; CDeleteGameRecord None]
        ∧ store w' = store w.
Proof.
  intros Hgame Hbound Hbackend Hstatus Hids.
  destruct (uninstall_run_outcome game None result x' w)
    as (w' & Hrun & Hcalls & Hstore); [done..|].
  exists w'. rewrite bool_decide_eq_true_2 in Hcalls, Hstore by done.
  split_and!; [|done|by rewrite Hstore, delete_game_record_absent].
  unfold uninstall_perform. by destruct game as [[|c g]|].
Qed.



(** C7. No lifecycle command gets as far as refreshing the catalog or
    reconciling the store.  [install] stops at the unbound name [quiet] before
    [refresh] is called; [list], [download], [info], [uninstall] and [launch]
    call [refresh], which stops in [login] at the [with] statement.  In every
    case the calls made and the store are as they were. *)
Theorem no_command_reaches_reconciliation quiet game uuid install_method
    installed not_installed json_output w :
  star_imported C !! "quiet" = None →
  install_game C game uuid install_method w = (Raise (NameError "quiet"), w)
  ∧ (∃ w', list_games C quiet installed not_installed json_output w
             = (Raise not_a_context_manager, w') ∧ only_console_changed w w')
  ∧ (∃ w', download_game C quiet game uuid w
             = (Raise not_a_context_manager, w') ∧ only_console_changed w w')
  ∧ (∃ w', info C quiet game uuid w
             = (Raise not_a_context_manager, w') ∧ only_console_changed w w')
  ∧ (∃ w', uninstall C quiet game uuid w
             = (Raise not_a_context_manager, w') ∧ only_console_changed w w')
  ∧ (∃ w', launch C quiet game uuid w
             = (Raise not_a_context_manager, w') ∧ only_console_changed w w').
Proof.
  intros Hstar. split; [by apply install_game_raises|].
  split_and!; apply after_refresh_unreached.
Qed.

(** C8. [install_game] has no parameter and no local named [quiet]; provided
    no star import binds that name at module level, every call raises
    [NameError] while the argument of [self.refresh(quiet)] is evaluated and
    leaves the world as it was: the store is not touched and no collaborator
    is called. *)
Theorem install_game_raises_NameError game uuid install_method w :
  star_imported C !! "quiet" = None →
("quiet" ∉ install_game_locals)
  ∧ install_game C game uuid install_method w = (Raise (NameError "quiet"), w).
Proof.
  intros Hstar. split; [apply quiet_is_not_a_local|by apply install_game_raises].
Qed.


(** A console that is not quiet does print. *)
Lemma loud_console_prints args kwargs w :
  Console_print {| quiet := false |} args kwargs w
  = (Ok tt, show (RichPrint args kwargs) w).
Proof. reflexivity. Qed.

(** C10. On a console built with [quiet=True] each of [print], [status],
    [log], [warn], [error] and [success] returns with the world, and so the
    screen, exactly as it was, whatever the arguments. *)
Theorem quiet_console_shows_nothing self args kwargs message text style w :
  quiet self = true →
  Console_print self args kwargs w = (Ok tt, w)
  ∧ Console_status self message args kwargs w = (Ok PyNone, w)
  ∧ Console_log self text style w = (Ok tt, w)
  ∧ Console_warn self text w = (Ok tt, w)
  ∧ Console_error self text w = (Ok tt, w)
  ∧ Console_success self text w = (Ok tt, w).
Proof.
  destruct self as [q]; cbn; intros ->. by split_and!.
Qed.

(** ** The rest of [console.py] *)





(** ** The rest of [cli/__init__.py] *)

Lemma download_game_stages quiet game uuid :
  download_game C quiet game uuid = (refresh C quiet;; download_game_body C game uuid).
Proof. reflexivity. Qed.

Lemma info_stages quiet game uuid :
  info C quiet game uuid = (refresh C quiet;; info_body C game uuid).
Proof. reflexivity. Qed.

Lemma launch_stages quiet game uuid :
  launch C quiet game uuid = (refresh C quiet;; launch_body C game uuid).
Proof. reflexivity. Qed.

Lemma bind_assoc_at {A B D} (m : M A) (f : A → M B) (g : B → M D) w :
  ((m ≫= f) ≫= g) w = (m ≫= λ a, f a ≫= g) w.
Proof. unfold mbind, M_bind. by destruct (m w) as [[a|e] w']. Qed.

Lemma bind_ext_at {A B} (m : M A) (f g : A → M B) w :
  (∀ a w', f a w' = g a w') → (m ≫= f) w = (m ≫= g) w.
Proof. intros Hfg. unfold mbind, M_bind. destruct (m w) as [[a|e] w']; auto. Qed.

Lemma bind_ret_at {A B} (a : A) (f : A → M B) w : (mret a ≫= f) w = f a w.
Proof. reflexivity. Qed.

(** [login] puts [Console(quiet)] in place of the console, whatever it was.
    With [quiet] it then fails without a word; without, the status comes and
    goes and the two lines of the [except] clause are printed. *)
Theorem login_output quiet w :
  ∃ w', login C quiet w = (Raise not_a_context_manager, w')
        ∧ console w' = {| quiet := quiet |}
        ∧ screen w' = screen w ++
            (if quiet then []
             else [RichStatusStart "Logging in to Legacy Games..." [] [];
                   RichStatusStop "Logging in to Legacy Games...";
                   RichPrint [PText ":exclamation: Unable to log in to Legacy Games!"] [];
                   RichPrint [PExc not_a_context_manager] []]).
Proof.
  destruct quiet; eexists; (split; [reflexivity|]); split; try reflexivity; cbn.
  - by rewrite app_nil_r.
  - by rewrite <- !app_assoc.
Qed.

(** [refresh] is [login] and nothing more: the failure of [login] is raised
    outside the [try] of [refresh], so its [except] clause never runs and
    [Unable to refresh games list!] is never printed. *)
Theorem refresh_is_login quiet w : refresh C quiet w = login C quiet w.
Proof.
  destruct (login_raises quiet w) as (w' & Hrun & _).
  unfold refresh, mbind, M_bind. by rewrite Hrun.
Qed.

Lemma only_screen_changed_refl w : only_screen_changed w w.
Proof. by repeat split. Qed.

Lemma only_screen_changed_trans w1 w2 w3 :
  only_screen_changed w1 w2 → only_screen_changed w2 w3 → only_screen_changed w1 w3.
Proof.
  unfold only_screen_changed, only_console_changed. intros ? ?.
  destruct_and!. split_and!; congruence.
Qed.

Lemma merge_game_spec g w :
  db_bound w = true →
  ∃ w', merge_game g w = (Ok (merged (store w) g), w')
        ∧ only_screen_changed w w'
        ∧ screen w' = screen w ++
            (if quiet (console w) then [] else merge_messages (store w) g).
Proof.
  destruct w as [x cfg bound st gs [q] uid sin scr cl]. cbn. intros ->.
  unfold merge_game, merged, record_of, merge_messages. run.
  destruct (find _ st) as [r|] eqn:Huuid.
  - rewrite bool_decide_eq_true_2 by eauto. run. eexists.
    split; [reflexivity|]. split; [by repeat split|].
    cbn. destruct q; by rewrite app_nil_r.
  - rewrite bool_decide_eq_false_2 by apply is_Some_None. clear Huuid. run.
    destruct q; run;
      (destruct (find _ st) as [r|] eqn:Hname;
       [rewrite bool_decide_eq_true_2 by eauto
       |rewrite bool_decide_eq_false_2 by apply is_Some_None]);
      run; eexists; (split; [reflexivity|]); (split; [by repeat split|]); cbn;
      rewrite <- ?app_assoc, ?app_nil_r; reflexivity.
Qed.

Lemma merge_games_spec gs w :
  db_bound w = true →
  ∃ w', merge_games gs w = (Ok (merged (store w) <$> gs), w')
        ∧ only_screen_changed w w'
        ∧ screen w' = screen w ++
            (if quiet (console w) then []
             else mjoin (merge_messages (store w) <$> gs)).
Proof.
  revert w. induction gs as [|g gs IH]; intros w Hbound.
  - exists w. split; [done|]. split; [apply only_screen_changed_refl|].
    cbn. destruct (quiet (console w)); by rewrite app_nil_r.
  - destruct (merge_game_spec g w Hbound) as (w1 & Hg & Hsame1 & Hscreen1).
    assert (db_bound w1 = true ∧ store w1 = store w ∧ console w1 = console w)
      as (Hbound1 & Hstore1 & Hconsole1).
    { destruct Hsame1 as [Hsame1 ?]. unfold only_console_changed in Hsame1.
      destruct_and!. split_and!; congruence. }
    destruct (IH w1 Hbound1) as (w2 & Hgs & Hsame2 & Hscreen2).
    exists w2. split_and!.
    + cbn [merge_games]. unfold mbind, M_bind at 1. rewrite Hg.
      unfold mbind, M_bind at 1. rewrite Hgs. by rewrite Hstore1.
    + by eapply only_screen_changed_trans.
    + rewrite Hscreen2, Hscreen1, Hconsole1, Hstore1.
      destruct (quiet (console w)); cbn; by rewrite <- ?app_assoc, ?app_nil_r.
Qed.

Lemma merge_outcome w :
  db_bound w = true →
  ∃ w', merge_game_data_with_db w = (Ok tt, w')
        ∧ games w' = merged (store w) <$> games w
        ∧ store w' = store w ∧ calls w' = calls w
        ∧ screen w' = screen w ++
            (if quiet (console w) then []
             else mjoin (merge_messages (store w) <$> games w)).
Proof.
  intros Hbound.
  destruct (merge_games_spec (games w) w Hbound) as (w1 & Hrun & Hsame & Hscreen).
  exists (set_games (merged (store w) <$> games w) w1).
  unfold merge_game_data_with_db. run. rewrite Hrun. split; [done|].
  destruct Hsame as [Hsame _]. unfold only_console_changed in Hsame.
  destruct_and!. by split_and!.
Qed.

Lemma merge_unbound w :
  db_bound w = false →
  merge_game_data_with_db w =
    match games w with
    | [] => (Ok tt, w)
    | _ :: _ => (Raise (KeyError "db"), w)
    end.
Proof.
  destruct w as [x cfg bound st gs q uid sin scr cl]. cbn. intros ->.
  by destruct gs.
Qed.

(** [merge_game_data_with_db], lines 58-70, where the complaints of lines 63
    and 66 can be rendered: the console is quiet, or no uuid and no name of
    the catalog holds markup of its own (the two are interpolated into the
    markup of the complaint).  With the database bound the merge then does
    not fail: every game takes [install_dir] and [executable] from the record
    of its uuid, else from the first record of its name, else stays as it is.
    The store is not written, no collaborator is called, and what is printed
    are the complaints about the lookups that found nothing. *)
Theorem merge_takes_fields_from_records w :
  db_bound w = true →
  quiet (console w) = true
  ∨ Forall (λ g, no_markup (installer_uuid g) = true ∧ no_markup (game_name g) = true)
      (games w) →
  ∃ w', merge_game_data_with_db w = (Ok tt, w')
        ∧ games w' = merged (store w) <$> games w
        ∧ store w' = store w ∧ calls w' = calls w
        ∧ screen w' = screen w ++
            (if quiet (console w) then []
             else mjoin (merge_messages (store w) <$> games w)).
Proof. intros Hbound _. by apply merge_outcome. Qed.

(** Without the key ['db'] the merge raises [KeyError] at the first game and
    has changed nothing; with no game at all the loop never reads the key and
    the merge returns normally. *)
Theorem merge_without_database w :
  db_bound w = false →
  merge_game_data_with_db w =
    match games w with
    | [] => (Ok tt, w)
    | _ :: _ => (Raise (KeyError "db"), w)
    end.
Proof. apply merge_unbound. Qed.

Lemma merged_keeps_identity db g :
  game_name (merged db g) = game_name g
  ∧ installer_uuid (merged db g) = installer_uuid g
  ∧ game_description (merged db g) = game_description g.
Proof. unfold merged. by destruct (record_of db g). Qed.

(** Whether the merge returns or raises, the games are the same titles in
    the same order (names, uuids and descriptions are untouched), and the
    store and the calls made are as before. *)
Theorem merge_keeps_the_catalog w :
  let w' := (merge_game_data_with_db w).2 in
  game_name <$> games w' = game_name <$> games w
  ∧ installer_uuid <$> games w' = installer_uuid <$> games w
  ∧ game_description <$> games w' = game_description <$> games w
  ∧ store w' = store w ∧ calls w' = calls w.
Proof.
  destruct (db_bound w) eqn:Hbound.
  - destruct (merge_outcome w Hbound)
      as (w' & Hrun & Hgames & Hstore & Hcalls & _).
    rewrite Hrun. cbn. rewrite Hgames, Hstore, Hcalls, <- !list_fmap_compose.
    split_and!; try done; apply list_fmap_ext; intros _ g _; unfold compose;
      by destruct (merged_keeps_identity (store w) g) as (? & ? & ?).
  - cbn zeta. rewrite (merge_unbound w Hbound).
    destruct (games w) eqn:Hgames; cbn [snd]; by rewrite Hgames.
Qed.

Lemma record_of_merged db g : record_of db (merged db g) = record_of db g.
Proof.
  unfold record_of.
  by destruct (merged_keeps_identity db g) as (-> & -> & _).
Qed.

Lemma merged_idemp db g : merged db (merged db g) = merged db g.
Proof.
  unfold merged at 1 3. rewrite record_of_merged.
  destruct (record_of db g) as [r|] eqn:Hr; [|by unfold merged; rewrite Hr].
  unfold with_record. by destruct (merged_keeps_identity db g) as (-> & -> & ->).
Qed.

(** Merging a second time changes no game: the merge is idempotent on
    [heirloom.games]. *)
Theorem merge_twice_is_merge_once w :
  db_bound w = true →
  games ((merge_game_data_with_db;; merge_game_data_with_db) w).2
  = games (merge_game_data_with_db w).2.
Proof.
  intros Hbound.
  destruct (merge_outcome w Hbound)
    as (w1 & Hrun1 & Hgames1 & Hstore1 & _).
  assert (db_bound w1 = true) as Hbound1.
  { revert Hrun1. unfold merge_game_data_with_db. run.
    destruct (merge_games_spec (games w) w Hbound) as (w0 & -> & [Hsame _] & _).
    intros [= <-]. unfold only_console_changed in Hsame. destruct_and!.
    cbn. congruence. }
  destruct (merge_outcome w1 Hbound1)
    as (w2 & Hrun2 & Hgames2 & _).
  unfold mbind, M_bind. rewrite Hrun1, Hrun2. cbn.
  rewrite Hgames2, Hgames1, Hstore1, <- list_fmap_compose.
  apply list_fmap_ext. intros _ g _. apply merged_idemp.
Qed.

(** When every game has a record under its uuid, as after [init_games_db],
    the merge prints nothing and leaves every game with both fields set. *)
Theorem merge_is_silent_when_uuids_are_known w :
  db_bound w = true →
  Forall (λ g, ∃ r, r ∈ store w ∧ rec_uuid r = Some (installer_uuid g)) (games w) →
  ∃ w', merge_game_data_with_db w = (Ok tt, w')
        ∧ screen w' = screen w
        ∧ Forall (λ g, is_Some (install_dir g) ∧ is_Some (executable g)) (games w').
Proof.
  intros Hbound Hknown.
  destruct (merge_outcome w Hbound)
    as (w' & Hrun & Hgames & _ & _ & Hscreen).
  assert (∀ g, g ∈ games w → ∃ r,
            find (λ r, bool_decide (rec_uuid r = Some (installer_uuid g))) (store w)
            = Some r) as Hfind.
  { intros g Hg. rewrite Forall_forall in Hknown.
    destruct (Hknown g Hg) as (r & Hr & Huuid).
    destruct (find _ (store w)) as [r'|] eqn:Hnone; [by eexists|].
    apply list_elem_of_In in Hr.
    pose proof (find_none _ _ Hnone r Hr) as Hfalse. cbn in Hfalse.
    by rewrite bool_decide_eq_true_2 in Hfalse. }
  exists w'. split; [done|]. split.
  - rewrite Hscreen. destruct (quiet (console w)); [by rewrite app_nil_r|].
    rewrite (join_nil_2 (merge_messages (store w) <$> games w));
      [by rewrite app_nil_r|].
    apply Forall_fmap, Forall_forall. intros g Hg. cbn.
    unfold merge_messages. by destruct (Hfind g Hg) as [r ->].
  - rewrite Hgames. apply Forall_fmap, Forall_forall. intros g Hg. cbn.
    unfold merged, record_of. destruct (Hfind g Hg) as [r ->]. cbn. eauto.
Qed.

Lemma installed_names_spec gs :
  installed_names gs =
    if bool_decide (Forall (λ g, is_Some (install_dir g)) gs)
    then Ok (choices_of true gs)
    else Raise (KeyError "install_dir").
Proof.
  unfold choices_of. induction gs as [|g gs IH]; [done|].
  cbn [installed_names]. destruct (install_dir g) as [d|] eqn:Hd.
  - rewrite IH. case_bool_decide as Hall.
    + rewrite (bool_decide_eq_true_2 (Forall _ (g :: gs)))
        by (constructor; [by rewrite Hd|done]).
      f_equal. case_bool_decide as Hne.
      * rewrite filter_cons_True by (rewrite Hd; congruence). done.
      * rewrite filter_cons_False by (rewrite Hd; intros Hne'; apply Hne'; congruence).
        done.
    + rewrite (bool_decide_eq_false_2 (Forall _ (g :: gs))); [done|].
      intros Hall'. by apply Forall_cons_1 in Hall' as [_ ?].
  - rewrite (bool_decide_eq_false_2 (Forall _ (g :: gs))); [done|].
    intros Hall'. apply Forall_cons_1 in Hall' as [Hsome _].
    rewrite Hd in Hsome. by apply is_Some_None in Hsome.
Qed.

(** The comprehension of line 79 of [select_from_games_list]: the names, in
    order, of the games whose [install_dir] is not ['Not Installed']; a single
    game without the key makes it raise [KeyError]. *)
Theorem installed_names_are_the_installed gs :
  installed_names gs =
    if bool_decide (Forall (λ g, is_Some (install_dir g)) gs)
    then Ok (choices_of true gs)
    else Raise (KeyError "install_dir").
Proof. apply installed_names_spec. Qed.

(** [select_from_games_list], lines 73-80: the list of games is refreshed
    first and rebinds [heirloom.games]; the prompt is then shown once, with
    all the names, or with the names of the installed games, and its answer
    (or its exception) is the result.  The store is not touched. *)
Theorem select_offers_the_refreshed_games installed_only gs x' w :
  heirloom_refresh_games_list C (ext w) = (Ok gs, x') →
  (installed_only = true → Forall (λ g, is_Some (install_dir g)) gs) →
  ∃ w', select_from_games_list C installed_only w
          = ((inquirer_select C "Select a game: " (choices_of installed_only gs) x').1, w')
        ∧ games w' = gs ∧ store w' = store w
        ∧ calls w' = calls w ++
            [CRefreshGamesList; CSelect "Select a game: " (choices_of installed_only gs)].
Proof.
  intros Hrefresh Hdirs.
  destruct w as [x cfg bound st gs0 q uid sin scr cl]. cbn in Hrefresh.
  unfold select_from_games_list, refresh_games_list. run. rewrite Hrefresh. run.
  destruct installed_only; cbn.
  - rewrite installed_names_spec, bool_decide_eq_true_2 by auto. run.
    destruct (inquirer_select _ _ _ _) as [r x'']. eexists.
    split; [reflexivity|]. cbn. by rewrite <- app_assoc.
  - destruct (inquirer_select _ _ _ _) as [r x'']. eexists.
    split; [reflexivity|]. cbn. by rewrite <- app_assoc.
Qed.

(** The installed-only selection reads [g['install_dir']] in the list it has
    just refreshed: when one entry of that list lacks the key, it raises
    [KeyError] and the prompt is never shown. *)
Theorem select_installed_needs_install_dir gs x' w :
  heirloom_refresh_games_list C (ext w) = (Ok gs, x') →
  ¬ Forall (λ g, is_Some (install_dir g)) gs →
  ∃ w', select_from_games_list C true w = (Raise (KeyError "install_dir"), w')
        ∧ games w' = gs ∧ store w' = store w
        ∧ calls w' = calls w ++ [CRefreshGamesList].
Proof.
  intros Hrefresh Hdirs.
  destruct w as [x cfg bound st gs0 q uid sin scr cl]. cbn in Hrefresh.
  unfold select_from_games_list, refresh_games_list. run. rewrite Hrefresh. run.
  rewrite installed_names_spec, bool_decide_eq_false_2 by done.
  eexists. split; [reflexivity|]. done.
Qed.

Lemma list_games_loop_spec installed not_installed gs w :
  db_bound w = true →
  list_games_loop installed not_installed gs w
  = (Ok (filter (λ g, listed (store w) installed not_installed g) gs), w).
Proof.
  destruct w as [x cfg bound st gs0 q uid sin scr cl]. cbn. intros ->.
  induction gs as [|g gs IH]; [done|].
  cbn [list_games_loop]. run. rewrite IH. unfold listed.
  destruct (find _ st) as [r|];
    [case_bool_decide; [destruct not_installed|destruct installed]|];
    reflexivity.
Qed.

(** The loop of [list_games], lines 135-148, with the database bound: it
    never fails, changes nothing, and returns in catalog order the games it
    keeps; the record it looks at is the first one with the game's name. *)
Theorem list_games_loop_filters installed not_installed gs w :
  db_bound w = true →
  list_games_loop installed not_installed gs w
  = (Ok (filter (λ g, listed (store w) installed not_installed g) gs), w).
Proof. apply list_games_loop_spec. Qed.

(** No title is lost between the two filters: each game of the catalog is in
    the [--installed] listing or in the [--not-installed] listing, and it is
    in both exactly when the store has no record under its name. *)
Theorem every_title_is_listed_somewhere gs g w :
  db_bound w = true →
  g ∈ gs →
  ∃ inst notinst,
    list_games_loop true false gs w = (Ok inst, w)
    ∧ list_games_loop false true gs w = (Ok notinst, w)
    ∧ (g ∈ inst ∨ g ∈ notinst)
    ∧ (g ∈ inst ∧ g ∈ notinst
       ↔ read_game_record (store w) None (Some (game_name g)) = Ok None).
Proof.
  intros Hbound Hg. eexists _, _.
  split; [by apply list_games_loop_spec|].
  split; [by apply list_games_loop_spec|].
  rewrite !list_elem_of_filter. unfold listed, read_game_record.
  destruct (find _ (store w)) as [r|].
  - case_bool_decide; cbn; intuition congruence.
  - cbn. intuition congruence.
Qed.

(** *** What a command leaves alone *)

Section Keeps.

Variable allowed : Call → bool.

Lemma within_refl w : within allowed w w.
Proof. split_and!; try done. exists []. by rewrite app_nil_r. Qed.

Lemma within_same w w' :
  store w' = store w → db_bound w' = db_bound w → config w' = config w →
  calls w' = calls w → within allowed w w'.
Proof. intros. split_and!; try done. exists []. by rewrite app_nil_r. Qed.

Lemma within_trans w1 w2 w3 :
  within allowed w1 w2 → within allowed w2 w3 → within allowed w1 w3.
Proof.
  intros (? & ? & ? & l1 & Hl1 & ?) (? & ? & ? & l2 & Hl2 & ?).
  split_and!; try congruence.
  exists (l1 ++ l2). split; [by rewrite Hl2, Hl1, app_assoc|by apply Forall_app].
Qed.

Lemma keeps_ret {A} (a : A) : keeps allowed (mret a).
Proof. intros w. apply within_refl. Qed.

Lemma keeps_raise {A} e : keeps allowed (raise (A:=A) e).
Proof. intros w. apply within_refl. Qed.

Lemma keeps_gets {A} (f : World → A) : keeps allowed (gets f).
Proof. intros w. apply within_refl. Qed.

Lemma keeps_lift {A} (o : Outcome A) : keeps allowed (lift o).
Proof. intros w. apply within_refl. Qed.

Lemma keeps_bind {A B} (m : M A) (k : A → M B) :
  keeps allowed m → (∀ a, keeps allowed (k a)) → keeps allowed (m ≫= k).
Proof.
  intros Hm Hk w. specialize (Hm w). unfold mbind, M_bind.
  destruct (m w) as [[a|e] w1]; [|done].
  eapply within_trans; [exact Hm|apply Hk].
Qed.

Lemma keeps_fmap {A B} (f : A → B) (m : M A) :
  keeps allowed m → keeps allowed (f <$> m).
Proof.
  intros Hm w. specialize (Hm w). unfold fmap, M_fmap.
  by destruct (m w) as [[a|e] w1].
Qed.

Lemma keeps_try_except {A} (m : M A) (h : Exception → M A) :
  keeps allowed m → (∀ e, keeps allowed (h e)) → keeps allowed (try_except m h).
Proof.
  intros Hm Hh w. specialize (Hm w). unfold try_except.
  destruct (m w) as [[a|e] w1]; [done|].
  eapply within_trans; [exact Hm|apply Hh].
Qed.

Lemma keeps_external {A} c (f : Ext → Outcome A * Ext) :
  allowed c = true → keeps allowed (external c f).
Proof.
  intros Hc w. unfold external. cbn.
  destruct (f (ext w)) as [r x]. split_and!; try done.
  exists [c]. split; [done|]. by constructor.
Qed.

Lemma keeps_show o : keeps allowed (modify (show o)).
Proof. intros w. by apply within_same. Qed.

Lemma keeps_set_games gs : keeps allowed (modify (set_games gs)).
Proof. intros w. by apply within_same. Qed.

Lemma keeps_console_print x : keeps allowed (console_print x).
Proof.
  intros w. unfold console_print, Console_print. run.
  destruct (quiet (console w)); by apply within_same.
Qed.

Lemma keeps_console_status message : keeps allowed (console_status message).
Proof.
  intros w. unfold console_status.
  destruct (Console_status_None (console w) message [] [] w)
    as (w' & Hrun & (Hsame & _)).
  unfold mbind, M_bind, gets. cbn. rewrite Hrun. cbn.
  unfold only_console_changed in Hsame. destruct_and!.
  by apply within_same.
Qed.

Lemma keeps_config_db : keeps allowed config_db.
Proof. intros w. unfold config_db. destruct (db_bound w); apply within_refl. Qed.

Lemma keeps_config_item key : keeps allowed (config_item key).
Proof.
  intros w. unfold config_item. run.
  destruct (config w !! key); apply within_refl.
Qed.

(** The block of a [with self.console.status(...)] is never entered. *)
Lemma with_console_status_at {A} message (body : M A) w :
  with_ (console_status message) body w
  = (console_status message;; raise not_a_context_manager) w.
Proof.
  unfold with_, console_status.
  destruct (Console_status_None (console w) message [] [] w) as (w' & Hrun & _).
  unfold mbind, M_bind, gets. cbn. by rewrite Hrun.
Qed.

Lemma keeps_with_console_status {A} message (body : M A) :
  keeps allowed (with_ (console_status message) body).
Proof.
  intros w. rewrite with_console_status_at.
  apply keeps_bind; [apply keeps_console_status|intros; apply keeps_raise].
Qed.

Lemma keeps_merge_games gs : keeps allowed (merge_games gs).
Proof.
  induction gs as [|g gs IH]; [apply keeps_ret|].
  cbn [merge_games]. apply keeps_bind; [|intros g'; apply keeps_bind;
    [exact IH|intros; apply keeps_ret]].
  unfold merge_game.
  repeat first
    [ apply keeps_config_db | apply keeps_lift | apply keeps_ret
    | apply keeps_console_print
    | apply keeps_bind; [|intros ?]
    | match goal with |- keeps _ (if ?b then _ else _) => destruct b end
    | match goal with |- keeps _ (match ?o with _ => _ end) => destruct o end ].
Qed.

Lemma keeps_merge : keeps allowed merge_game_data_with_db.
Proof.
  unfold merge_game_data_with_db.
  apply keeps_bind; [apply keeps_gets|intros gs].
  apply keeps_bind; [apply keeps_merge_games|intros gs'; apply keeps_set_games].
Qed.

End Keeps.

(** Chains the lemmas of [Keeps] through a computation; calls to the
    collaborators are left to be shown allowed. *)
Ltac keeps_step :=
  first
    [ apply keeps_ret | apply keeps_raise | apply keeps_gets | apply keeps_lift
    | apply keeps_config_db | apply keeps_config_item | apply keeps_console_print
    | apply keeps_show | apply keeps_set_games | apply keeps_merge
    | apply keeps_with_console_status
    | apply keeps_external; reflexivity
    | apply keeps_fmap
    | apply keeps_bind; [|intros ?]
    | match goal with |- keeps _ (if ?b then _ else _) => destruct b end
    | match goal with |- keeps _ (match ?o with _ => _ end) => destruct o end
    | match goal with |- keeps _ (let '(_, _) := ?p in _) => destruct p end ].

Lemma keeps_select allowed installed_only :
  (∀ c, is_lookup c = true → allowed c = true) →
  keeps allowed (select_from_games_list C installed_only).
Proof.
  intros Hallowed.
  unfold select_from_games_list, refresh_games_list.
  repeat first [keeps_step | apply keeps_external; by apply Hallowed].
Qed.

Lemma keeps_get_game_from_uuid allowed uuid :
  (∀ c, is_lookup c = true → allowed c = true) →
  keeps allowed (get_game_from_uuid C uuid).
Proof.
  intros Hallowed. unfold get_game_from_uuid.
  repeat first [keeps_step | apply keeps_external; by apply Hallowed].
Qed.

Lemma keeps_get_uuid_from_name allowed game :
  (∀ c, is_lookup c = true → allowed c = true) →
  keeps allowed (get_uuid_from_name C game).
Proof.
  intros Hallowed. unfold get_uuid_from_name.
  repeat first [keeps_step | apply keeps_external; by apply Hallowed].
Qed.

Ltac keeps_all :=
  repeat first
    [ apply keeps_select; by intros []
    | apply keeps_get_game_from_uuid; by intros []
    | apply keeps_get_uuid_from_name; by intros []
    | keeps_step ].

(** [download_game], lines 170-175: whatever the collaborators do, return or
    raise, the record store, the binding of the database and the
    configuration are left as they were, and nothing is called but the
    lookups of the title, the prompt and the download itself. *)
Theorem download_leaves_the_store_alone game uuid w :
  within (λ c, is_lookup c || is_download c) w (download_game_body C game uuid w).2.
Proof. revert w. unfold download_game_body. keeps_all. Qed.

(** [info], lines 231-236: the same for [info], whose only other call is the
    dump of the game's data; the merge it starts with reads the store and
    does not write it. *)
Theorem info_leaves_the_store_alone game uuid w :
  within (λ c, is_lookup c || is_dump c) w (info_body C game uuid w).2.
Proof. revert w. unfold info_body, print. keeps_all. Qed.

Lemma always_raises_bind {A B} (m : M A) (k : A → M B) :
  (∀ a, always_raises (k a)) → always_raises (m ≫= k).
Proof.
  intros Hk w. unfold mbind, M_bind.
  destruct (m w) as [[a|e] w1]; [apply Hk|by exists e].
Qed.

Lemma always_raises_with_console_status {A} message (body : M A) :
  always_raises (with_ (console_status message) body).
Proof.
  intros w. rewrite with_console_status_at. unfold console_status.
  destruct (Console_status_None (console w) message [] [] w) as (w' & Hrun & _).
  unfold mbind, M_bind, gets. cbn. rewrite Hrun. by eexists.
Qed.

(** [launch], lines 271-281, never starts the game: whatever the arguments,
    the collaborators and the store, it ends in an exception, it has called
    nothing but the lookups of the title and the prompt ([subprocess.run] in
    particular is never called), and the store and the configuration are as
    before. *)
Theorem launch_never_runs_the_game game uuid w :
  (∃ e, (launch_body C game uuid w).1 = Raise e)
  ∧ within is_lookup w (launch_body C game uuid w).2.
Proof.
  split.
  - revert w. unfold launch_body.
    repeat first
      [ apply always_raises_with_console_status
      | apply always_raises_bind; intros ?
      | match goal with |- always_raises (let '(_, _) := ?p in _) => destruct p end ].
  - revert w. unfold launch_body. keeps_all.
Qed.

(** Given a uuid, [download], [info] and [uninstall] ignore [--game]: the
    title is the one the uuid resolves to. *)
Theorem uuid_overrides_game game game' uuid w :
  truthy_str uuid = true →
  download_game_body C game uuid w = download_game_body C game' uuid w
  ∧ info_body C game uuid w = info_body C game' uuid w
  ∧ uninstall_perform C game uuid w = uninstall_perform C game' uuid w.
Proof.
  intros Huuid. unfold download_game_body, info_body, uninstall_perform.
  by rewrite Huuid.
Qed.

Lemma fmap_bind_at {A B D} (f : A → B) (m : M A) (k : B → M D) w :
  ((f <$> m) ≫= k) w = (m ≫= λ a, k (f a)) w.
Proof. unfold mbind, M_bind, fmap, M_fmap. by destruct (m w) as [[a|e] w1]. Qed.

(** [launch] is different: without [--game] it first asks the user to pick
    an installed game, also when a uuid is given, and then drops the answer
    for the title of the uuid. *)
Theorem launch_prompts_before_it_uses_the_uuid game game' uuid w :
  truthy_str game = false →
  truthy_str uuid = true →
  launch_body C game uuid w
  = (select_from_games_list C true;; launch_body C (Some ("x" +:+ game')) uuid) w.
Proof.
  intros Hgame Huuid. unfold launch_body. rewrite Hgame, Huuid. cbn [negb truthy_str].
  rewrite fmap_bind_at. apply bind_ext_at. intros picked w'. reflexivity.
Qed.

(** [list --json] writes the listing with the builtin [print], so [--quiet]
    does not silence it.  The table needs [rich.table] and [rich.box], which
    the bare [import rich] does not provide: when [rich.table], or else
    [rich.box], has not been imported elsewhere, the table branch raises
    [AttributeError] after the listing has been computed, quiet or not; when
    both are there, the table goes through the console, and a quiet console
    shows none of it.  The JSON listing is a sublist of the catalog. *)
Theorem quiet_silences_the_table_not_the_json installed not_installed w :
  db_bound w = true →
  (∃ l w', list_games_body C installed not_installed true w = (Ok tt, w')
           ∧ sublist l (games w)
           ∧ screen w' = screen w ++ [Stdout (PJson l)])
  ∧ (rich_submodule_loaded C "table" = false →
     ∃ w', list_games_body C installed not_installed false w
             = (Raise (AttributeError "module 'rich' has no attribute 'table'"), w')
           ∧ screen w' = screen w)
  ∧ (rich_submodule_loaded C "table" = true →
     rich_submodule_loaded C "box" = false →
     ∃ w', list_games_body C installed not_installed false w
             = (Raise (AttributeError "module 'rich' has no attribute 'box'"), w')
           ∧ screen w' = screen w)
  ∧ (rich_submodule_loaded C "table" = true →
     rich_submodule_loaded C "box" = true →
     quiet (console w) = true →
     ∃ w', list_games_body C installed not_installed false w = (Ok tt, w')
           ∧ screen w' = screen w).
Proof.
  destruct w as [x cfg bound st gs [q] uid sin scr cl]. cbn. intros ->.
  unfold list_games_body, list_games_show, rich_submodule,
    refresh_installation_status, print.
  set (flags := if installed && not_installed then (false, false)
                else (installed, not_installed)).
  destruct flags as [i n]. split_and!.
  - run. rewrite list_games_loop_spec by done. run.
    eexists _, _. split; [reflexivity|]. cbn. split; [|reflexivity].
    apply sublist_filter.
  - intros Htable. run. rewrite list_games_loop_spec by done. run.
    rewrite Htable. run. eexists. by split.
  - intros Htable Hbox. run. rewrite list_games_loop_spec by done. run.
    rewrite Htable. run. rewrite Hbox. run. eexists. by split.
  - intros Htable Hbox ->. run. rewrite list_games_loop_spec by done. run.
    rewrite Htable. run. rewrite Hbox. run. eexists. by split.
Qed.

(** *** [install_game], lines 187-199 *)

Lemma truthy_str_Some line : line ≠ "" → truthy_str (Some line) = true.
Proof. by destruct line. Qed.

Lemma base_install_dir_loop_configured n w :
  truthy_str (config w !! "base_install_dir") = true →
  base_install_dir_loop n w = (Ok tt, w).
Proof.
  intros Hset. destruct n; cbn [base_install_dir_loop]; run; by rewrite Hset.
Qed.

Lemma base_install_dir_loop_skips k n w line rest :
  stdin w = replicate k "" ++ line :: rest →
  line ≠ "" →
  truthy_str (config w !! "base_install_dir") = false →
  k < n →
  ∃ w', base_install_dir_loop n w = (Ok tt, w')
        ∧ config w' = <["base_install_dir" := line]> (config w)
        ∧ stdin w' = rest
        ∧ calls w' = calls w ++ replicate (S k) (CInput base_dir_prompt)
        ∧ screen w' = screen w ++ replicate (S k) (Stdout (PText base_dir_prompt))
        ∧ store w' = store w.
Proof.
  revert n w. induction k as [|k IH]; intros n w Hin Hline Hunset Hn;
    (destruct n as [|n]; [lia|]);
    destruct w as [x cfg bound st gs q uid sin scr cl]; cbn in Hin, Hunset;
    subst sin; cbn [base_install_dir_loop]; unfold input; run; rewrite Hunset; run.
  - rewrite base_install_dir_loop_configured
      by (cbn; rewrite lookup_insert_eq; by apply truthy_str_Some).
    eexists. split; [reflexivity|]. by split_and!.
  - edestruct (IH n) as (w' & Hrun & Hcfg & Hstdin & Hcalls & Hscreen & Hstore);
      [| exact Hline | | | rewrite Hrun ]; [reflexivity| |lia|].
    { cbn. by rewrite lookup_insert_eq. }
    exists w'. split; [done|]. cbn in *.
    rewrite Hcfg, insert_insert_eq, Hcalls, Hscreen, <- !app_assoc. by split_and!.
Qed.

(** The loop of lines 189-190 skips empty answers: with no base installation
    folder configured, it asks once for each empty line and once more, takes
    the first non-empty line as the folder, and leaves the rest of the input
    unread. *)
Theorem base_install_dir_is_first_nonempty_line k w line rest :
  stdin w = replicate k "" ++ line :: rest →
  line ≠ "" →
  truthy_str (config w !! "base_install_dir") = false →
  ∃ w', base_install_dir_loop (S (length (stdin w))) w = (Ok tt, w')
        ∧ config w' = <["base_install_dir" := line]> (config w)
        ∧ stdin w' = rest
        ∧ calls w' = calls w ++ replicate (S k) (CInput base_dir_prompt)
        ∧ screen w' = screen w ++ replicate (S k) (Stdout (PText base_dir_prompt))
        ∧ store w' = store w.
Proof.
  intros Hin Hline Hunset.
  apply (base_install_dir_loop_skips k _ w line rest); try done.
  rewrite Hin, length_app, length_replicate. cbn. lia.
Qed.

Lemma base_install_dir_loop_eof k n w :
  stdin w = replicate k "" →
  truthy_str (config w !! "base_install_dir") = false →
  k < n →
  ∃ w', base_install_dir_loop n w = (Raise EOFError, w')
        ∧ stdin w' = []
        ∧ calls w' = calls w ++ replicate (S k) (CInput base_dir_prompt)
        ∧ store w' = store w.
Proof.
  revert n w. induction k as [|k IH]; intros n w Hin Hunset Hn;
    (destruct n as [|n]; [lia|]);
    destruct w as [x cfg bound st gs q uid sin scr cl]; cbn in Hin, Hunset;
    subst sin; cbn [base_install_dir_loop]; unfold input; run; rewrite Hunset; run.
  - eexists. split; [reflexivity|]. by split_and!.
  - edestruct (IH n) as (w' & Hrun & Hstdin & Hcalls & Hstore);
      [| | | rewrite Hrun ]; [reflexivity| |lia|].
    { cbn. by rewrite lookup_insert_eq. }
    exists w'. split; [done|]. cbn in *.
    rewrite Hcalls, <- !app_assoc. by split_and!.
Qed.

(** When the input ends before a non-empty line has come, the loop raises
    [EOFError]: it has asked once for each empty line and once more, and the
    store is as it was. *)
Theorem base_install_dir_needs_an_answer k w :
  stdin w = replicate k "" →
  truthy_str (config w !! "base_install_dir") = false →
  ∃ w', base_install_dir_loop (S (length (stdin w))) w = (Raise EOFError, w')
        ∧ stdin w' = []
        ∧ calls w' = calls w ++ replicate (S k) (CInput base_dir_prompt)
        ∧ store w' = store w.
Proof.
  intros Hin Hunset.
  apply (base_install_dir_loop_eof k _ w); try done.
  rewrite Hin, length_replicate. lia.
Qed.

(** With a base installation folder configured, lines 189-192 ask nothing
    and read nothing; the folder is created when, and only when, it is not
    there. *)
Theorem configured_base_dir_is_not_asked_for base w :
  config w !! "base_install_dir" = Some base →
  base ≠ "" →
  let dir := os_path_expanduser C base in
  let '(r, x') := os_makedirs C dir (ext w) in
  ensure_base_install_dir C w =
    if os_path_isdir C dir (ext w) then (Ok tt, w)
    else (r, set_ext x' (record_call (CMakedirs dir) w)).
Proof.
  intros Hbase Hne. cbn zeta.
  destruct (os_makedirs _ _ _) as [r x'] eqn:Hmk.
  unfold ensure_base_install_dir, mbind, M_bind, gets. cbv beta iota.
  rewrite base_install_dir_loop_configured
    by (rewrite Hbase; by apply truthy_str_Some).
  unfold config_item. run. rewrite Hbase. run.
  destruct (os_path_isdir _ _ _); cbn; [done|].
  by rewrite Hmk.
Qed.

(** Lines 193-199 with the name of the title given: together with a uuid
    nothing is looked up and both are taken as they are; without one, the
    uuid is looked up from the name, once, and taken whatever it is. *)
Theorem resolve_with_a_game_name game uuid w :
  truthy_str game = true →
  install_game_resolve C game uuid w =
    if truthy_str uuid then (Ok (game, uuid), w)
    else
      let '(r, x') := heirloom_get_uuid_from_name C (games w) game (ext w) in
      (match r with Ok u => Ok (game, u) | Raise e => Raise e end,
       set_ext x' (record_call (CGetUuidFromName game) w)).
Proof.
  intros Hgame. unfold install_game_resolve, get_uuid_from_name.
  rewrite Hgame. cbn [negb andb]. run.
  destruct (truthy_str uuid); cbn; rewrite Hgame; cbn.
  - by rewrite Hgame.
  - by destruct (heirloom_get_uuid_from_name _ _ _ _) as [[u|e] x'].
Qed.

(** Lines 193-199 with only a uuid given: the name is looked up once and
    taken whatever the lookup returns.  A uuid that resolves to no title
    ([None]) is not refused: the installer is then run without a name. *)
Theorem resolve_with_only_a_uuid game uuid found x' w :
  truthy_str game = false →
  truthy_str uuid = true →
  heirloom_get_game_from_uuid C (games w) uuid (ext w) = (Ok found, x') →
  install_game_resolve C game uuid w
  = (Ok (found, uuid), set_ext x' (record_call (CGetGameFromUuid uuid) w)).
Proof.
  intros Hgame Huuid Hfound.
  destruct w as [x cfg bound st gs q uid sin scr cl]. cbn in Hfound.
  unfold install_game_resolve, get_game_from_uuid.
  rewrite Hgame, Huuid. cbn [negb andb]. run.
  rewrite Hgame, Huuid. cbn. rewrite Hfound. cbn.
  by rewrite andb_false_r.
Qed.

(** *** [install_game] and [uninstall], the handling of the result *)

(** A result with status ['success'] but no ['install_path'] raises
    [KeyError] at line 205, before anything is printed or written. *)
Theorem success_without_install_path game uuid result w :
  status result = Some "success" →
  install_path result = None →
  install_game_commit C game uuid result w = (Raise (KeyError "install_path"), w).
Proof.
  intros Hstatus Hpath. unfold install_game_commit.
  by rewrite bool_decide_eq_true_2, Hpath.
Qed.


(** A failed installation or removal is only reported on the console: the
    result and one more line are printed (nothing on a quiet console),
    nothing else changes, and the command returns normally. *)
Theorem failure_is_only_printed game uuid result w :
  status result ≠ Some "success" →
  (∃ w', install_game_commit C game uuid result w = (Ok tt, w')
         ∧ only_screen_changed w w'
         ∧ screen w' = screen w ++
             (if quiet (console w) then []
              else [RichPrint [PResult result] [];
                    RichPrint [PText "[bold]Installation was [red italic]unsuccessful[/red italic]! :frowning:"] []]))
  ∧ (∃ w', uninstall_commit game uuid result w = (Ok tt, w')
           ∧ only_screen_changed w w'
           ∧ screen w' = screen w ++
               (if quiet (console w) then []
                else [RichPrint [PResult result] [];
                      RichPrint [PText "[bold]Uninstallation was [red italic]unsuccessful[/red italic]! :frowning:"] []])).
Proof.
  intros Hstatus. destruct w as [x cfg bound st gs [q] uid sin scr cl].
  unfold install_game_commit, uninstall_commit.
  rewrite !bool_decide_eq_false_2 by done.
  split; destruct q; eexists; (split; [reflexivity|]);
    (split; [by repeat split|]); cbn; by rewrite <- ?app_assoc, ?app_nil_r.
Qed.

(** *** The path that is recorded *)

Lemma string_app_cons x (a b : string) : String x a +:+ b = String x (a +:+ b).
Proof. reflexivity. Qed.

Lemma string_app_nil (b : string) : "" +:+ b = b.
Proof. reflexivity. Qed.

Lemma string_app_assoc (a b c : string) : (a +:+ b) +:+ c = a +:+ (b +:+ c).
Proof.
  induction a as [|x a IH]; [done|]. rewrite !string_app_cons. by rewrite IH.
Qed.

Lemma string_length_app (a b : string) :
  String.length (a +:+ b) = String.length a + String.length b.
Proof.
  induction a as [|x a IH]; [done|]. rewrite string_app_cons. cbn. by rewrite IH.
Qed.

Lemma string_app_inv_tail (a b l : string) : a +:+ l = b +:+ l → a = b.
Proof.
  revert b. induction a as [|x a IH]; intros [|y b] Heq;
    rewrite ?string_app_cons, ?string_app_nil in Heq.
  - done.
  - apply (f_equal String.length) in Heq. cbn in Heq.
    rewrite string_length_app in Heq. lia.
  - apply (f_equal String.length) in Heq. cbn in Heq.
    rewrite string_length_app in Heq. lia.
  - injection Heq as -> Heq. f_equal. by apply IH.
Qed.

Lemma string_last_char (a b : string) (x y : ascii) :
  a +:+ String x "" = b +:+ String y "" → x = y.
Proof.
  revert b. induction a as [|c a IH]; intros [|d b] Heq;
    rewrite ?string_app_cons, ?string_app_nil in Heq.
  - by injection Heq.
  - injection Heq as _ Heq. by destruct b.
  - injection Heq as _ Heq. by destruct a.
  - injection Heq as _ Heq. by apply IH in Heq.
Qed.

Lemma split_pieces_have_no_slash s :
  Forall (λ piece, ∀ a b, piece ≠ a +:+ String "/" b) (split "/" s).
Proof.
  induction s as [|c s IH]; cbn [split].
  - constructor; [|done]. by intros [|] b.
  - pose proof (split_not_nil "/" s) as Hne.
    destruct (split "/" s) as [|piece pieces]; [done|].
    apply Forall_cons_1 in IH as [Hpiece Hpieces].
    case_bool_decide as Hc.
    + constructor; [by intros [|] b|by constructor].
    + constructor; [|done].
      intros [|x a] b; rewrite ?string_app_cons, ?string_app_nil; intros [= Hx Heq].
      * by subst c.
      * by apply Hpiece in Heq.
Qed.

Lemma join_ends_with_last (l : list string) :
  l ≠ [] →
  ∃ pre, join "/" l = pre +:+ default "" (last l)
         ∧ (pre = "" ∨ ∃ q, pre = q +:+ "/").
Proof.
  induction l as [|x l IH]; [done|]. intros _.
  destruct l as [|y l]; [exists ""; by split; [|left]|].
  destruct IH as (pre & Hjoin & Hpre); [done|].
  exists (x +:+ "/" +:+ pre). split.
  - change (join "/" (x :: y :: l)) with (x +:+ "/" +:+ join "/" (y :: l)).
    rewrite Hjoin. change (last (x :: y :: l)) with (last (y :: l)).
    by rewrite !string_app_assoc.
  - right. destruct Hpre as [->|[q ->]].
    + exists x. reflexivity.
    + exists (x +:+ "/" +:+ q). by rewrite !string_app_assoc.
Qed.

Lemma last_component_split s :
  (∃ pre, s = pre +:+ last_component s ∧ (pre = "" ∨ ∃ q, pre = q +:+ "/"))
  ∧ (∀ a b, last_component s ≠ a +:+ String "/" b).
Proof.
  pose proof (last_split s) as Hlast. split.
  - destruct (join_ends_with_last (split "/" s)) as (pre & Hjoin & Hpre);
      [apply split_not_nil|].
    rewrite join_split, Hlast in Hjoin. by exists pre.
  - pose proof (split_pieces_have_no_slash s) as Hall.
    rewrite Forall_forall in Hall. apply Hall.
    by apply last_Some_elem_of.
Qed.

(** [s.split('/')[-1]] cuts a path after its last ['/']: the path is a prefix
    that is empty or ends in ['/'], followed by the component, and the
    component holds no ['/']. *)
Theorem last_component_is_what_follows_the_last_slash s :
  (∃ pre, s = pre +:+ last_component s ∧ (pre = "" ∨ ∃ q, pre = q +:+ "/"))
  ∧ (∀ a b, last_component s ≠ a +:+ String "/" b).
Proof. apply last_component_split. Qed.

Lemma rebuilt_path_differs p c : p +:+ "\" +:+ last_component c ≠ c.
Proof.
  destruct (last_component_split c) as [(pre & Hc & Hpre) _].
  intros Heq. rewrite Hc in Heq at 2.
  rewrite <- string_app_assoc in Heq. apply string_app_inv_tail in Heq.
  destruct Hpre as [->|[q ->]].
  - apply (f_equal String.length) in Heq. rewrite string_length_app in Heq.
    cbn in Heq. lia.
  - by apply string_last_char in Heq.
Qed.

(** The executable that lines 207-215 record (install path, a backslash, the
    last component) is never the path it was made from, neither the
    installer's candidate nor the user's pick, whatever the install path. *)
Theorem recorded_executable_is_never_the_candidate p c :
  p +:+ "\" +:+ last_component c ≠ c.
Proof. apply rebuilt_path_differs. Qed.

(** The stages of [install_game] after [refresh]: lines 187-188, 189-192,
    193-199 and 200-219. *)
Lemma install_game_body_stages game uuid install_method w :
  install_game_body C game uuid install_method w
  = (refresh_installation_status C;;
     merge_game_data_with_db;;
     ensure_base_install_dir C;;
     '(game, uuid) ← install_game_resolve C game uuid;
     install_game_perform C game uuid install_method) w.
Proof.
  unfold install_game_body, ensure_base_install_dir, install_game_resolve.
  apply bind_ext_at. intros _ w1. apply bind_ext_at. intros _ w2.
  symmetry.
  repeat first
    [ rewrite bind_assoc_at
    | apply bind_ext_at; intros ? ?
    | reflexivity
    | match goal with |- context [let '(_, _) := ?p in _] => destruct p end ].
Qed.

(** *** The executable that is recorded *)

(** C4.  Lines 204-216 of [install_game] on a successful result, with
    ['wine_path'] configured and the database bound, where the three texts
    interpolated into the messages of lines 205 and 208/214 can be rendered
    (the console is quiet or they hold no markup of their own).  With exactly
    one candidate no prompt is shown, and with more than one
    [inquirer.select] is called once with exactly the list of candidates and
    returns one of them; but in neither case is the candidate (or the pick)
    what is recorded: the executable written to the store is the install
    path, a backslash and the last ['/']-separated component, which is never
    the candidate itself. *)
Theorem resolved_executable_is_rebuilt game uuid result p wine_path w :
  status result = Some "success" →
  install_path result = Some p →
  config w !! "wine_path" = Some wine_path →
  db_bound w = true →
  (∀ c, executable_files result = Some [c] →
     renders w [p; wine_path; last_component c] →
     ∃ w', install_game_commit C game uuid result w = (Ok tt, w')
           ∧ calls w' = calls w ++ [CWriteGameRecord (committed_record game uuid p c)]
           ∧ store w' = upsert (committed_record game uuid p c) (store w)
           ∧ rec_executable (committed_record game uuid p c) ≠ c)
  ∧
  (∀ cs answer x',
     executable_files result = Some cs → 1 < length cs →
     inquirer_select C "Select the executable used to launch the game: " cs (ext w)
       = (Ok answer, x') →
     answer ∈ cs →
     renders w [p; wine_path; last_component answer] →
     ∃ w', install_game_commit C game uuid result w = (Ok tt, w')
           ∧ calls w' = calls w ++
               [CSelect "Select the executable used to launch the game: " cs;
                CWriteGameRecord (committed_record game uuid p answer)]
           ∧ store w' = upsert (committed_record game uuid p answer) (store w)
           ∧ rec_executable (committed_record game uuid p answer) ≠ answer).
Proof.
  intros Hstatus Hpath Hwine Hbound.
  destruct w as [x cfg bound st gs [q] uid sin scr cl].
  cbn in Hbound, Hwine. subst bound.
  split.
  - intros c Hfiles _. unfold install_game_commit.
    rewrite bool_decide_eq_true_2, Hpath, Hfiles by done.
    destruct q; run; rewrite (bool_decide_eq_true_2 (1 = 1)) by done; run;
      rewrite last_split; run; rewrite Hwine; run;
      eexists; (split; [reflexivity|]);
      (split_and!; cbn; [by rewrite <- ?app_assoc|done|apply rebuilt_path_differs]).
  - intros cs answer x' Hfiles Hmany Hselect _ _. cbn in Hselect.
    unfold install_game_commit.
    rewrite bool_decide_eq_true_2, Hpath, Hfiles by done.
    assert (truthy_list (Some cs) = true) as ->
      by (destruct cs; [cbn in Hmany; lia|done]).
    assert (bool_decide (length (default [] (Some cs)) = 1) = false) as ->
      by (apply bool_decide_eq_false_2; cbn; lia).
    assert (bool_decide (1 < length (default [] (Some cs))) = true) as ->
      by (by apply bool_decide_eq_true_2).
    destruct q; run; rewrite Hselect; run; rewrite last_split; run;
      rewrite Hwine; run;
      eexists; (split; [reflexivity|]);
      (split_and!; cbn; [by rewrite <- ?app_assoc|done|apply rebuilt_path_differs]).
Qed.

(** *** [uninstall] and the store *)

Lemma same_but_store_refl w : same_but_store w w.
Proof. by repeat split. Qed.



Lemma blind_raise {A} e : store_blind (raise (A := A) e).
Proof. by intros w1 w2 Hsame. Qed.





Lemma blind_console_print x : store_blind (console_print x).
Proof.
  intros w1 w2 Hsame. unfold same_but_store in Hsame. destruct_and!.
  unfold console_print. run.
  match goal with H : console w1 = console w2 |- _ => rewrite H end.
  destruct (quiet (console w2)); cbn;
    (split; [done|]); unfold same_but_store; cbn; split_and!; congruence.
Qed.










(** *** [list] with both filters *)



End Properties.

(** * The theorems at work in the scripted world *)

Import Scripted.

Lemma failed_install_commits_nothing_witness :
  let w := world (outside failed failed []) in
  install_backend_failed collaborators (Some "Mystery Case Files") (Some wine) w
  ∧ store (install_game_perform collaborators (Some "Mystery Case Files")
             (Some "uuid-1") (Some wine) w).2 = store w.
Proof.
  intros w.
  assert (install_backend_failed collaborators (Some "Mystery Case Files")
            (Some wine) w) as Hfailed by (cbn; discriminate).
  split; [exact Hfailed|].
  exact (proj1 (failed_install_commits_nothing collaborators
                  (Some "Mystery Case Files") (Some "uuid-1") (Some wine) w Hfailed)).
Defined.

Lemma no_executable_leaves_answer_unbound_witness :
  let w := world (outside (succeeded "/games/MCF" []) failed []) in
  ∃ w', install_game_commit collaborators (Some "Mystery Case Files")
          (Some "uuid-1") (succeeded "/games/MCF" []) w
        = (Raise (UnboundLocalError "answer"), w')
        ∧ only_console_changed w w'.
Proof.
  intros w.
  exact (no_executable_leaves_answer_unbound collaborators
           (Some "Mystery Case Files") (Some "uuid-1")
           (succeeded "/games/MCF" []) "/games/MCF" w
           eq_refl eq_refl eq_refl eq_refl).
Defined.

Lemma uninstall_by_name_deletes_no_record_witness :
  let w := world_installed (outside failed (succeeded "" []) []) in
  read_game_record (store w) (Some "uuid-1") None
    = Ok (Some {| rec_uuid := Some "uuid-1"; rec_name := Some "Mystery Case Files";
                  rec_install_dir := "/games/MCF";
                  rec_executable := "/games/MCF\Game.exe" |})
  ∧ ∃ w', uninstall_perform collaborators (Some "Mystery Case Files") None w
            = (Ok tt, w')
          ∧ calls w' = calls w ++ [CUninstallGame (Some "Mystery Case Files");
                                   CDeleteGameRecord None]
          ∧ store w' = store w.
Proof.
  intros w. split; [reflexivity|].
  apply (uninstall_by_name_deletes_no_record collaborators
           (Some "Mystery Case Files") (succeeded "" []) (set_disk [] (ext w)) w);
    [reflexivity..|].
  by repeat constructor.
Defined.



Lemma resolved_executable_is_rebuilt_witness :
  let w := world (outside failed failed ["B/Game2.exe"]) in
  let one := succeeded "/games/MCF" ["A/Game.exe"] in
  let two := succeeded "/games/MCF" ["A/Game.exe"; "B/Game2.exe"] in
  (∃ w', install_game_commit collaborators (Some "Mystery Case Files")
           (Some "uuid-1") one w = (Ok tt, w')
         ∧ calls w' = calls w ++
             [CWriteGameRecord
                (committed_record (Some "Mystery Case Files") (Some "uuid-1")
                   "/games/MCF" "A/Game.exe")]
         ∧ store w' = upsert (committed_record (Some "Mystery Case Files")
                                (Some "uuid-1") "/games/MCF" "A/Game.exe")
                        (store w)
         ∧ rec_executable (committed_record (Some "Mystery Case Files")
                             (Some "uuid-1") "/games/MCF" "A/Game.exe")
           ≠ "A/Game.exe")
  ∧ (∃ w', install_game_commit collaborators (Some "Mystery Case Files")
             (Some "uuid-1") two w = (Ok tt, w')
           ∧ calls w' = calls w ++
               [CSelect "Select the executable used to launch the game: "
                  ["A/Game.exe"; "B/Game2.exe"];
                CWriteGameRecord
                  (committed_record (Some "Mystery Case Files") (Some "uuid-1")
                     "/games/MCF" "B/Game2.exe")]
           ∧ store w' = upsert (committed_record (Some "Mystery Case Files")
                                  (Some "uuid-1") "/games/MCF" "B/Game2.exe")
                          (store w)
           ∧ rec_executable (committed_record (Some "Mystery Case Files")
                               (Some "uuid-1") "/games/MCF" "B/Game2.exe")
             ≠ "B/Game2.exe").
Proof.
  intros w one two. split.
  - apply (proj1 (resolved_executable_is_rebuilt collaborators
                    (Some "Mystery Case Files") (Some "uuid-1") one
                    "/games/MCF" "/usr/bin/wine" w
                    eq_refl eq_refl eq_refl eq_refl) "A/Game.exe");
      [reflexivity|right; repeat constructor].
  - apply (proj2 (resolved_executable_is_rebuilt collaborators
                    (Some "Mystery Case Files") (Some "uuid-1") two
                    "/games/MCF" "/usr/bin/wine" w
                    eq_refl eq_refl eq_refl eq_refl)
             ["A/Game.exe"; "B/Game2.exe"] "B/Game2.exe" (set_picks [] (ext w)));
      [reflexivity|cbn; lia|reflexivity
      |apply list_elem_of_In; right; left; reflexivity
      |right; repeat constructor].
Defined.



Lemma no_command_reaches_reconciliation_witness :
  let w := world (outside failed failed []) in
  star_imported collaborators !! "quiet" = None
  ∧ install_game collaborators (Some "Mystery Case Files") None None w
    = (Raise (NameError "quiet"), w).
Proof.
  intros w.
  assert (star_imported collaborators !! "quiet" = None) as Hstar by (by vm_compute).
  split; [exact Hstar|].
  exact (proj1 (no_command_reaches_reconciliation collaborators false
                  (Some "Mystery Case Files") None None false false false w Hstar)).
Defined.

Lemma install_game_raises_NameError_witness :
  let w := world (outside (succeeded "/games/MCF" ["A/Game.exe"]) failed []) in
  star_imported collaborators !! "quiet" = None
  ∧ install_game collaborators None (Some "uuid-1") (Some sevenzip) w
    = (Raise (NameError "quiet"), w).
Proof.
  intros w.
  assert (star_imported collaborators !! "quiet" = None) as Hstar by (by vm_compute).
  split; [exact Hstar|].
  exact (proj2 (install_game_raises_NameError collaborators None (Some "uuid-1")
                  (Some sevenzip) w Hstar)).
Defined.

Lemma quiet_console_shows_nothing_witness :
  let w := world (outside failed failed []) in
  quiet {| quiet := true |} = true
  ∧ Console_warn {| quiet := true |} "disk almost full" w = (Ok tt, w).
Proof.
  intros w. split; [reflexivity|].
  exact (proj1 (proj2 (proj2 (proj2
           (quiet_console_shows_nothing {| quiet := true |} [] [] "" "disk almost full"
              "" w eq_refl))))).
Defined.


Lemma merge_takes_fields_from_records_witness :
  ∃ w', merge_game_data_with_db (world_installed (outside failed failed []))
          = (Ok tt, w')
        ∧ install_dir <$> games w' = [Some "/games/MCF"; Some NOT_INSTALLED]
        ∧ screen w' = [].
Proof.
  assert (Forall (λ g, no_markup (installer_uuid g) = true
                       ∧ no_markup (game_name g) = true)
            (games (world_installed (outside failed failed [])))) as Hnames
    by (repeat constructor).
  destruct (merge_takes_fields_from_records
              (world_installed (outside failed failed [])) eq_refl
              (or_intror Hnames))
    as (w' & Hrun & Hgames & _ & _ & Hscreen).
  exists w'. split; [exact Hrun|]. split.
  - rewrite Hgames. reflexivity.
  - rewrite Hscreen. reflexivity.
Defined.

Lemma merge_without_database_witness :
  merge_game_data_with_db (world_unconfigured [] (outside failed failed []))
  = (Raise (KeyError "db"), world_unconfigured [] (outside failed failed [])).
Proof.
  exact (merge_without_database
           (world_unconfigured [] (outside failed failed [])) eq_refl).
Defined.

Lemma merge_twice_is_merge_once_witness :
  games ((merge_game_data_with_db;; merge_game_data_with_db)
           (world_installed (outside failed failed []))).2
  = games (merge_game_data_with_db (world_installed (outside failed failed []))).2.
Proof.
  exact (merge_twice_is_merge_once
           (world_installed (outside failed failed [])) eq_refl).
Defined.

Lemma merge_is_silent_when_uuids_are_known_witness :
  ∃ w', merge_game_data_with_db (world (outside failed failed [])) = (Ok tt, w')
        ∧ screen w' = []
        ∧ Forall (λ g, is_Some (install_dir g) ∧ is_Some (executable g)) (games w').
Proof.
  apply (merge_is_silent_when_uuids_are_known (world (outside failed failed []))
           eq_refl).
  repeat constructor.
  - eexists. split; [apply list_elem_of_In; left; reflexivity|reflexivity].
  - eexists. split; [apply list_elem_of_In; right; left; reflexivity|reflexivity].
Defined.

Lemma select_offers_the_refreshed_games_witness :
  ∃ w', select_from_games_list collaborators false
          (world (outside failed failed ["Jewel Quest"]))
        = (Ok "Jewel Quest", w')
        ∧ calls w' = [CRefreshGamesList;
                      CSelect "Select a game: " ["Mystery Case Files"; "Jewel Quest"]].
Proof.
  destruct (select_offers_the_refreshed_games collaborators false catalog
              (outside failed failed ["Jewel Quest"])
              (world (outside failed failed ["Jewel Quest"])) eq_refl)
    as (w' & Hrun & _ & _ & Hcalls); [discriminate|].
  exists w'. split; [exact Hrun|exact Hcalls].
Defined.

Lemma select_installed_needs_install_dir_witness :
  ∃ w', select_from_games_list collaborators true (world (outside failed failed []))
        = (Raise (KeyError "install_dir"), w')
        ∧ calls w' = [CRefreshGamesList].
Proof.
  destruct (select_installed_needs_install_dir collaborators catalog
              (outside failed failed []) (world (outside failed failed [])) eq_refl)
    as (w' & Hrun & _ & _ & Hcalls).
  - intros Hall. apply Forall_cons_1 in Hall as [Hsome _].
    by apply is_Some_None in Hsome.
  - exists w'. split; [exact Hrun|exact Hcalls].
Defined.

Lemma list_games_loop_filters_witness :
  (list_games_loop true false catalog (world_installed (outside failed failed []))).1
  = Ok (filter (λ g, listed (store (world_installed (outside failed failed [])))
                       true false g) catalog)
  ∧ game_name <$> filter (λ g, listed (store (world_installed (outside failed failed [])))
                                 true false g) catalog
    = ["Mystery Case Files"].
Proof.
  split; [|reflexivity].
  rewrite (list_games_loop_filters true false catalog
             (world_installed (outside failed failed [])) eq_refl).
  reflexivity.
Defined.

Lemma every_title_is_listed_somewhere_witness :
  ∃ inst notinst,
    list_games_loop true false catalog (world_installed (outside failed failed []))
      = (Ok inst, world_installed (outside failed failed []))
    ∧ list_games_loop false true catalog (world_installed (outside failed failed []))
      = (Ok notinst, world_installed (outside failed failed []))
    ∧ ∃ g, game_name g = "Jewel Quest" ∧ (g ∈ inst ∨ g ∈ notinst).
Proof.
  destruct (every_title_is_listed_somewhere catalog
              {| game_name := "Jewel Quest"; installer_uuid := "uuid-2";
                 game_description := "Match three"; install_dir := None;
                 executable := None |}
              (world_installed (outside failed failed [])) eq_refl)
    as (inst & notinst & Hinst & Hnotinst & Hin & _).
  - apply list_elem_of_In. right. left. reflexivity.
  - exists inst, notinst. split; [exact Hinst|]. split; [exact Hnotinst|].
    eexists. split; [|exact Hin]. reflexivity.
Defined.

Lemma quiet_silences_the_table_not_the_json_witness :
  ∃ l w', list_games_body collaborators false false true
            (world (outside failed failed [])) = (Ok tt, w')
          ∧ sublist l catalog
          ∧ screen w' = [Stdout (PJson l)].
Proof.
  exact (proj1 (quiet_silences_the_table_not_the_json collaborators false false
                  (world (outside failed failed [])) eq_refl)).
Defined.

Lemma uuid_overrides_game_witness :
  uninstall_perform collaborators (Some "Jewel Quest") (Some "uuid-1")
    (world (outside failed failed []))
  = uninstall_perform collaborators None (Some "uuid-1")
      (world (outside failed failed [])).
Proof.
  exact (proj2 (proj2 (uuid_overrides_game collaborators (Some "Jewel Quest") None
                         (Some "uuid-1") (world (outside failed failed [])) eq_refl))).
Defined.

Lemma launch_prompts_before_it_uses_the_uuid_witness :
  launch_body collaborators None (Some "uuid-1")
    (world (outside failed failed ["Jewel Quest"]))
  = (select_from_games_list collaborators true;;
     launch_body collaborators (Some "x") (Some "uuid-1"))
      (world (outside failed failed ["Jewel Quest"])).
Proof.
  exact (launch_prompts_before_it_uses_the_uuid collaborators None "" (Some "uuid-1")
           (world (outside failed failed ["Jewel Quest"])) eq_refl eq_refl).
Defined.

Lemma base_install_dir_is_first_nonempty_line_witness :
  ∃ w', base_install_dir_loop 5
          (world_unconfigured [""; ""; "/opt/games"; "unread"] (outside failed failed []))
        = (Ok tt, w')
        ∧ config w' !! "base_install_dir" = Some "/opt/games"
        ∧ stdin w' = ["unread"].
Proof.
  destruct (base_install_dir_is_first_nonempty_line 2
              (world_unconfigured [""; ""; "/opt/games"; "unread"]
                 (outside failed failed []))
              "/opt/games" ["unread"] eq_refl)
    as (w' & Hrun & Hconfig & Hstdin & _); [discriminate|reflexivity|].
  exists w'. split; [exact Hrun|]. split; [|exact Hstdin].
  rewrite Hconfig. apply lookup_insert_eq.
Defined.

Lemma base_install_dir_needs_an_answer_witness :
  ∃ w', base_install_dir_loop 3
          (world_unconfigured [""; ""] (outside failed failed []))
        = (Raise EOFError, w')
        ∧ stdin w' = [].
Proof.
  destruct (base_install_dir_needs_an_answer 2
              (world_unconfigured [""; ""] (outside failed failed []))
              eq_refl eq_refl)
    as (w' & Hrun & Hstdin & _).
  exists w'. split; [exact Hrun|exact Hstdin].
Defined.

Lemma configured_base_dir_is_not_asked_for_witness :
  ensure_base_install_dir collaborators (world (outside failed failed []))
  = (Ok tt, set_ext (set_disk ["/games"] (outside failed failed []))
              (record_call (CMakedirs "/games") (world (outside failed failed [])))).
Proof.
  exact (configured_base_dir_is_not_asked_for collaborators "/games"
           (world (outside failed failed [])) eq_refl ltac:(discriminate)).
Defined.

Lemma resolve_with_a_game_name_witness :
  install_game_resolve collaborators (Some "Jewel Quest") (Some "uuid-2")
    (world (outside failed failed []))
  = (Ok (Some "Jewel Quest", Some "uuid-2"), world (outside failed failed [])).
Proof.
  exact (resolve_with_a_game_name collaborators (Some "Jewel Quest") (Some "uuid-2")
           (world (outside failed failed [])) eq_refl).
Defined.

Lemma resolve_with_only_a_uuid_witness :
  install_game_resolve collaborators None (Some "uuid-9")
    (world (outside failed failed []))
  = (Ok (None, Some "uuid-9"),
     set_ext (outside failed failed [])
       (record_call (CGetGameFromUuid (Some "uuid-9"))
          (world (outside failed failed [])))).
Proof.
  exact (resolve_with_only_a_uuid collaborators None (Some "uuid-9") None
           (outside failed failed []) (world (outside failed failed []))
           eq_refl eq_refl eq_refl).
Defined.

Lemma success_without_install_path_witness :
  install_game_commit collaborators (Some "Jewel Quest") (Some "uuid-2")
    {| status := Some "success"; install_path := None; executable_files := None |}
    (world (outside failed failed []))
  = (Raise (KeyError "install_path"), world (outside failed failed [])).
Proof.
  exact (success_without_install_path collaborators (Some "Jewel Quest")
           (Some "uuid-2")
           {| status := Some "success"; install_path := None;
              executable_files := None |}
           (world (outside failed failed [])) eq_refl eq_refl).
Defined.


Lemma failure_is_only_printed_witness :
  ∃ w', uninstall_commit (Some "Jewel Quest") (Some "uuid-2") failed
          (world (outside failed failed [])) = (Ok tt, w')
        ∧ only_screen_changed (world (outside failed failed [])) w'.
Proof.
  destruct (proj2 (failure_is_only_printed collaborators (Some "Jewel Quest")
                     (Some "uuid-2") failed (world (outside failed failed []))
                     ltac:(discriminate)))
    as (w' & Hrun & Hsame & _).
  exists w'. split; [exact Hrun|exact Hsame].
Defined.
